(** * Partner hierarchy of hexya-base (src/partner.go): commercial resolution,
    field synchronisation, address lookup and address formatting. *)

From Stdlib Require Import String Ascii ZArith Lia.
From stdpp Require Import base gmap sets list strings.

Open Scope string_scope.

(** ** Data model *)

(** The fields of the Partner model that the synchronisation code reads or
    writes by name ([rs.Get(f.String())], [res.Set(...)]).  [Type] is a
    keyword of Rocq, hence [Type_]. *)
Inductive FieldName :=
  | Name | Parent | IsCompany | Active | Type_ | VAT | CreditLimit
  | Street | Street2 | Zip | City | State | Country | CompanyName.

#[global] Instance FieldName_eq_dec : EqDecision FieldName.
Proof. solve_decision. Defined.

(** Field values: char fields, boolean fields, the float field
    [CreditLimit] (only copied and tested against zero, kept as Z) and
    many2one references ([None] is the empty record set). *)
Inductive Value :=
  | VStr (s : string)
  | VBool (b : bool)
  | VFloat (z : Z)
  | VRef (r : option nat).

#[global] Instance Value_eq_dec : EqDecision Value.
Proof. solve_decision. Defined.

(** [typesutils.IsZero] *)
Definition IsZero (v : Value) : bool :=
  match v with
  | VStr s => String.eqb s ""
  | VBool b => negb b
  | VFloat z => Z.eqb z 0
  | VRef r => match r with None => true | Some _ => false end
  end.

(** Go zero value of each field. *)
Definition zero_of (f : FieldName) : Value :=
  match f with
  | Parent | State | Country => VRef None
  | IsCompany | Active => VBool false
  | CreditLimit => VFloat 0
  | _ => VStr ""
  end.

(** A stored partner record. *)
Abbreviation Partner := (FieldName -> Value).

(** The partner table: record id -> record. *)
Abbreviation DB := (gmap nat Partner).

(** [m.PartnerData]: the values of a write, keyed by field name. *)
Definition PartnerData := list (FieldName * Value).

Fixpoint data_get (d : PartnerData) (f : FieldName) : option Value :=
  match d with
  | [] => None
  | (g, v) :: d' => if decide (g = f) then Some v else data_get d' f
  end.

Definition data_has (d : PartnerData) (f : FieldName) : bool :=
  match data_get d f with Some _ => true | None => false end.

Definition data_set (d : PartnerData) (f : FieldName) (v : Value) : PartnerData :=
  (f, v) :: filter (fun p => fst p <> f) d.

(** Writing [d] on a record. *)
Definition apply_data (d : PartnerData) (r : Partner) : Partner :=
  fun g => match data_get d g with Some v => v | None => r g end.

Definition get_field (db : DB) (e : nat) (f : FieldName) : Value :=
  match db !! e with Some r => r f | None => zero_of f end.

Definition ref_of (v : Value) : option nat :=
  match v with VRef r => r | _ => None end.
Definition bool_of (v : Value) : bool :=
  match v with VBool b => b | _ => false end.
Definition str_of (v : Value) : string :=
  match v with VStr s => s | _ => "" end.

(** [rs.Parent()], [rs.IsCompany()], [rs.Active()], [rs.Type()] *)
Definition parent_of (db : DB) (e : nat) : option nat := ref_of (get_field db e Parent).
Definition is_company (db : DB) (e : nat) : bool := bool_of (get_field db e IsCompany).
Definition is_active (db : DB) (e : nat) : bool := bool_of (get_field db e Active).
Definition type_of (db : DB) (e : nat) : string := str_of (get_field db e Type_).

(** [Children]: one2many on [Parent], filtered on [Active = true]. *)
Definition Children (db : DB) (e : nat) : list nat :=
  fst <$> filter (fun kr => ref_of (kr.2 Parent) = Some e /\ bool_of (kr.2 Active) = true)
                 (map_to_list db).

(** [AddressFields] and [CommercialFields] (partner.go). *)
Definition AddressFields : list FieldName := [Street; Street2; Zip; City; State; Country].
Definition CommercialFields : list FieldName := [VAT; CreditLimit].

(** [UpdateFieldValues]: a PartnerData with this partner's values on [fs]. *)
Definition UpdateFieldValues (db : DB) (e : nat) (fs : list FieldName) : PartnerData :=
  map (fun f => (f, get_field db e f)) fs.

(** ** Hierarchy *)

(** The parent chain from [e] reaches a partner without parent within [n]
    steps. *)
Fixpoint ends_within (n : nat) (db : DB) (e : nat) : bool :=
  match parent_of db e with
  | None => true
  | Some q => match n with 0 => false | S m => ends_within m db q end
  end.

(** Acyclicity of the parent relation: following [Parent] links from any
    partner terminates within the number of partners. *)
Definition acyclic (db : DB) : Prop := forall e, ends_within (size db) db e = true.

Definition acyclic_b (db : DB) : bool :=
  forallb (fun kr => ends_within (size db) db kr.1) (map_to_list db).

(** ** Commercial partner *)

(** [ComputeCommercialPartner]: the partner itself when it is a company or
    has no parent, otherwise the (stored) commercial partner of its parent,
    given here as [parent_cp]. *)
Definition ComputeCommercialPartner (parent_cp : nat -> nat) (db : DB) (e : nat) : nat :=
  if negb (is_company db e) then
    match parent_of db e with Some p => parent_cp p | None => e end
  else e.

Fixpoint cp_fuel (n : nat) (db : DB) (e : nat) : nat :=
  match n with
  | 0 => e
  | S m => ComputeCommercialPartner (cp_fuel m db) db e
  end.

(** The stored field [CommercialPartner], kept up to date through its
    dependencies [IsCompany], [Parent] and [Parent.CommercialPartner]:
    the compute method iterated along the parent chain. *)
Definition CommercialPartner (db : DB) (e : nat) : nat := cp_fuel (size db) db e.

(** ** Create / Write and the field synchroniser *)

(** Who issued a [Write]: an outside caller, or one of the synchroniser's
    own writes.  Logged together with the write's context key
    [goto_super] and whether the write ran [FieldsSync] again. *)
Inductive Origin :=
  | OExternal | OCommercialSyncFromCompany | OCommercialSyncToChildren | OUpdateAddress.

Record Event := mkEvent {
  ev_origin : Origin;
  ev_ids : list nat;
  ev_goto_super : bool;
  ev_resync : bool }.

(** State threaded through the ORM calls: the partner table and the log of
    [Write] calls. *)
Record St := mkSt { st_db : DB; st_log : list Event }.

(** Calls that can panic ([log.Panic] on a constraint) return [None]; so do
    calls that exceed the recursion budget [n] of the definitions below. *)
Definition M (A : Type) : Type := St -> option (A * St).

Definition mret {A} (a : A) : M A := fun s => Some (a, s).
Definition mbind {A B} (m : M A) (k : A -> M B) : M B :=
  fun s => match m s with Some (a, s') => k a s' | None => None end.
Definition mfail {A} : M A := fun _ => None.
Definition read_db : M DB := fun s => Some (st_db s, s).
Definition put_db (db : DB) : M unit := fun s => Some (tt, mkSt db (st_log s)).
Definition emit (e : Event) : M unit := fun s => Some (tt, mkSt (st_db s) (st_log s ++ [e])).

Notation "'let*' x ':=' m 'in' k" := (mbind m (fun x => k))
  (at level 200, x name, m at level 100, right associativity).

Fixpoint iterM {A} (f : A -> M unit) (l : list A) : M unit :=
  match l with
  | [] => mret tt
  | x :: l' => let* _ := f x in iterM f l'
  end.

(** [rs.Env().Context().HasKey(k)] *)
Definition has_key (ctx : list string) (k : string) : bool := existsb (String.eqb k) ctx.

(** [!vals.Parent().IsEmpty()] *)
Definition parent_set (vals : PartnerData) : bool :=
  match data_get vals Parent with Some (VRef (Some _)) => true | _ => false end.

(** The Hierarchy Validator: the [CheckParent] constraint of the [Parent]
    field ([CheckRecursion], a method of the ORM), checked when [Parent] is
    written; the walk from every partner must end. *)
Definition CheckParent (db : DB) : bool := acyclic_b db.

(** [rs.Super().Write(vals)]: the ORM write, then the constraint of the
    written fields. *)
Definition super_write (ids : list nat) (vals : PartnerData) : M unit :=
  let* db := read_db in
  let db1 := foldl (fun acc i => alter (apply_data vals) i acc) db ids in
  if data_has vals Parent && negb (CheckParent db1) then mfail else put_db db1.

(** [OnchangeParent]: the parent's address, when this partner is a contact
    and its parent has some address field set. *)
Definition OnchangeParent (db : DB) (y : nat) : PartnerData :=
  match parent_of db y with
  | None => []
  | Some p =>
      if negb (String.eqb (type_of db y) "contact") then []
      else if existsb (fun f => negb (IsZero (get_field db p f))) AddressFields
      then UpdateFieldValues db p AddressFields
      else []
  end.

(** The address fields present in [vals], in [AddressFields] order. *)
Definition address_part (vals : PartnerData) : PartnerData :=
  omap (fun f => (fun v => (f, v)) <$> data_get vals f) AddressFields.

Definition non_company (db : DB) (l : list nat) : list nat :=
  filter (fun c => is_company db c = false) l.

(** [ctx] holds the keys of the environment's context ([rs.Env()]): each
    method of the synchroniser runs in the context of its caller, and
    [WithContext(k, ...)] adds the key [k]. *)
Fixpoint Write (n : nat) (ctx : list string) (ids : list nat) (vals : PartnerData)
    (o : Origin) : M unit :=
  match n with
  | 0 => mfail
  | S m =>
      if has_key ctx "goto_super" then
        let* _ := emit (mkEvent o ids true false) in
        super_write ids vals
      else
        let vals := if parent_set vals then data_set vals CompanyName (VStr "") else vals in
        let* _ := emit (mkEvent o ids false true) in
        let* _ := super_write ids vals in
        iterM (fun i => FieldsSync m ctx i vals) ids
  end
with FieldsSync (n : nat) (ctx : list string) (y : nat) (vals : PartnerData) : M unit :=
  match n with
  | 0 => mfail
  | S m =>
      (* 1a. commercial fields, when the parent changed *)
      let* _ := (if parent_set vals then CommercialSyncFromCompany m ctx y else mret tt) in
      (* 1b. address fields *)
      let* db := read_db in
      let* _ := (if bool_decide (parent_of db y <> None) && String.eqb (type_of db y) "contact"
                 then UpdateAddress m ctx [y] (OnchangeParent db y) else mret tt) in
      (* 2. to downstream *)
      let* db := read_db in
      match Children db y with
      | [] => mret tt
      | _ =>
          (* 2a. commercial fields *)
          let* _ := (if Nat.eqb y (CommercialPartner db y) &&
                        existsb (fun f => negb (IsZero (get_field db y f))) CommercialFields
                     then CommercialSyncToChildren m ctx y else mret tt) in
          let* db := read_db in
          let* _ := (if existsb (fun c => negb (Nat.eqb (CommercialPartner db c) (CommercialPartner db y)))
                               (non_company db (Children db y))
                     then CommercialSyncToChildren m ctx y else mret tt) in
          (* 2b. address fields *)
          let* db := read_db in
          if existsb (data_has vals) AddressFields
          then UpdateAddress m ctx (filter (fun c => type_of db c = "contact") (Children db y)) vals
          else mret tt
      end
  end
with CommercialSyncFromCompany (n : nat) (ctx : list string) (y : nat) : M unit :=
  match n with
  | 0 => mfail
  | S m =>
      let* db := read_db in
      if Nat.eqb y (CommercialPartner db y) then mret tt
      else Write m ctx [y] (UpdateFieldValues db (CommercialPartner db y) CommercialFields)
             OCommercialSyncFromCompany
  end
with CommercialSyncToChildren (n : nat) (ctx : list string) (x : nat) : M unit :=
  match n with
  | 0 => mfail
  | S m =>
      let* db := read_db in
      let partnerData := UpdateFieldValues db (CommercialPartner db x) CommercialFields in
      match non_company db (Children db x) with
      | [] => mret tt
      | syncChildren =>
          let* _ := iterM (CommercialSyncToChildren m ctx) syncChildren in
          Write m ("hexya_force_compute_write" :: ctx) syncChildren partnerData
            OCommercialSyncToChildren
      end
  end
with UpdateAddress (n : nat) (ctx : list string) (ids : list nat) (vals : PartnerData) : M unit :=
  match n with
  | 0 => mfail
  | S m =>
      match address_part vals with
      | [] => mret tt
      | res => Write m ("goto_super" :: ctx) ids res OUpdateAddress
      end
  end.

(** [HandleFirsrtContactCreation] *)
Definition HandleFirsrtContactCreation (n : nat) (ctx : list string) (c : nat) : M unit :=
  let* db := read_db in
  let p := parent_of db c in
  let parent_is_company := match p with Some q => is_company db q | None => false end in
  let grandparent := match p with Some q => parent_of db q | None => None end in
  if negb parent_is_company && bool_decide (grandparent <> None) then mret tt
  else
    let siblings := match p with Some q => Children db q | None => [] end in
    if negb (Nat.eqb (length siblings) 1) then mret tt
    else
      let addr_defined (e : option nat) :=
        match e with
        | Some q => existsb (fun f => negb (IsZero (get_field db q f))) AddressFields
        | None => false
        end in
      if addr_defined (Some c) && negb (addr_defined p) then
        UpdateAddress n ctx (match p with Some q => [q] | None => [] end)
          (UpdateFieldValues db c AddressFields)
      else mret tt.

(** Defaults of [rs.Super().Create]: [Type] is "contact", [Active] is true. *)
Definition default_partner : Partner :=
  fun f => match f with
           | Type_ => VStr "contact"
           | Active => VBool true
           | _ => zero_of f
           end.

(** [rs.Super().Create(vals)]: a fresh id, then the constraint. *)
Definition super_create (vals : PartnerData) : M nat :=
  let* db := read_db in
  let i := fresh (dom db) in
  let db1 := <[i := apply_data vals default_partner]> db in
  if data_has vals Parent && negb (CheckParent db1) then mfail
  else let* _ := put_db db1 in mret i.

(** The [Create] extension.  It does not look at the context, but the
    synchroniser it runs inherits it. *)
Definition Create (n : nat) (ctx : list string) (vals : PartnerData) : M nat :=
  let vals := if parent_set vals then data_set vals CompanyName (VStr "") else vals in
  let* partner := super_create vals in
  let* _ := FieldsSync n ctx partner vals in
  let* _ := HandleFirsrtContactCreation n ctx partner in
  mret partner.

(** Running from a table with an empty log. *)
Definition run {A} (m : M A) (db : DB) : option (A * St) := m (mkSt db []).

(** A sample table. *)
Definition mk (fs : PartnerData) : Partner := apply_data fs default_partner.

Definition db_ex : DB :=
  <[1 := mk [(Name, VStr "A"); (IsCompany, VBool true); (VAT, VStr "BE01")]]>
  (<[2 := mk [(Name, VStr "B"); (Parent, VRef (Some 1)); (Street, VStr "1 Main St")]]>
  (<[3 := mk [(Name, VStr "C"); (Parent, VRef (Some 2))]]> ∅)).

Definition fields_of (o : option (nat * St)) (e : nat) (fs : list FieldName) : option (list Value) :=
  (fun r => map (get_field (st_db r.2) e) fs) <$> o.

(** ** AddressGet *)

(** Result map of [AddressGet]: contact type -> record set. *)
Abbreviation AddrResult := (gmap string (list nat)).

(** The breadth-first inner loop over [toScan].  Returns [true] when every
    type of [atMap] has a match ([return result] in the source). *)
Fixpoint scan (fuel : nat) (db : DB) (atMap : gset string) (toScan : list nat)
    (result : AddrResult) (visited : gset nat) : option (bool * AddrResult * gset nat) :=
  match fuel with
  | 0 => None
  | S f =>
      match toScan with
      | [] => Some (false, result, visited)
      | record :: rest =>
          let visited := {[record]} ∪ visited in
          let t := type_of db record in
          let result := if bool_decide (t ∈ atMap) && bool_decide (result !! t = None)
                        then <[t := [record]]> result else result in
          if Nat.eqb (size result) (size atMap) then Some (true, result, visited)
          else
            let kids := filter (fun c => (c ∉ visited) /\ is_company db c = false)
                               (Children db record) in
            scan f db atMap (rest ++ kids) result visited
      end
  end.

(** The loop over [currentPartner], climbing to the parent while the
    current partner is not a company. *)
Fixpoint climb (fuel : nat) (db : DB) (atMap : gset string) (current : nat)
    (result : AddrResult) (visited : gset nat) : option (bool * AddrResult * gset nat) :=
  match fuel with
  | 0 => None
  | S f =>
      match scan fuel db atMap [current] result visited with
      | None => None
      | Some (true, r, v) => Some (true, r, v)
      | Some (false, r, v) =>
          match parent_of db current with
          | Some q => if is_company db current then Some (false, r, v)
                      else climb f db atMap q r v
          | None => Some (false, r, v)
          end
      end
  end.

Fixpoint seeds_loop (fuel : nat) (db : DB) (atMap : gset string) (seeds : list nat)
    (result : AddrResult) (visited : gset nat) : option (bool * AddrResult) :=
  match seeds with
  | [] => Some (false, result)
  | partner :: rest =>
      match climb fuel db atMap partner result visited with
      | None => None
      | Some (true, r, _) => Some (true, r)
      | Some (false, r, v) => seeds_loop fuel db atMap rest r v
      end
  end.

(** [AddressGet] on the record set [rs]. *)
Definition AddressGet (fuel : nat) (db : DB) (rs : list nat) (addrTypes : list string)
    : option AddrResult :=
  let atMap : gset string := {["contact"]} ∪ list_to_set addrTypes in
  match seeds_loop fuel db atMap rs ∅ ∅ with
  | None => None
  | Some (true, r) => Some r
  | Some (false, r) =>
      let def := match r !! "contact" with Some ct => ct | None => rs end in
      Some (foldl (fun acc t => match acc !! t with Some _ => acc | None => <[t := def]> acc end)
                  r addrTypes)
  end.

(** ** DisplayAddress *)

Record CountryRec := mkCountry { country_Name : string; country_Code : string;
                                 country_AddressFormat : string }.
Record StateRec := mkState { state_Name : string; state_Code : string }.

(** [basetypes.AddressData], as the template sees it: field name -> text. *)
Definition AddressData := list (string * string).

(** [ComputeCommercialCompanyName] *)
Definition CommercialCompanyName (db : DB) (e : nat) : string :=
  let cp := CommercialPartner db e in
  if is_company db cp then str_of (get_field db cp Name)
  else str_of (get_field db e CompanyName).

(** Rendering of a [text/template] made of text and field actions
    [{{ .Field }}], the actions of the address formats of the table.  [None]
    is an execution error (unknown field, unclosed action), and also stands
    for every format outside this subset (trim markers [{{- ... -}}],
    comments, pipelines, ...), which Go renders: what is proved of [render]
    and [DisplayAddress] holds for the default format and the formats of
    this subset only. *)
Inductive lex_state := LText | LOpen | LAction (buf : list ascii) | LClose (buf : list ascii).

Fixpoint drop_spaces (l : list ascii) : list ascii :=
  match l with
  | c :: l' => if Ascii.eqb c " "%char then drop_spaces l' else l
  | [] => []
  end.

Definition eval_action (buf : list ascii) (d : AddressData) : option (list ascii) :=
  match rev (drop_spaces (rev (drop_spaces buf))) with
  | c :: name =>
      if Ascii.eqb c "."%char then
        (fun kv => list_ascii_of_string kv.2) <$>
          List.find (fun kv => String.eqb kv.1 (string_of_list_ascii name)) d
      else None
  | [] => None
  end.

Fixpoint render_chars (cs : list ascii) (st : lex_state) (d : AddressData) : option (list ascii) :=
  match cs, st with
  | [], LText => Some []
  | [], LOpen => Some ["{"%char]
  | [], _ => None
  | c :: cs', LText =>
      if Ascii.eqb c "{"%char then render_chars cs' LOpen d
      else cons c <$> render_chars cs' LText d
  | c :: cs', LOpen =>
      if Ascii.eqb c "{"%char then render_chars cs' (LAction []) d
      else (fun r => "{"%char :: c :: r) <$> render_chars cs' LText d
  | c :: cs', LAction buf =>
      if Ascii.eqb c "}"%char then render_chars cs' (LClose buf) d
      else render_chars cs' (LAction (buf ++ [c])) d
  | c :: cs', LClose buf =>
      if Ascii.eqb c "}"%char then
        match eval_action buf d with
        | Some v => app v <$> render_chars cs' LText d
        | None => None
        end
      else render_chars cs' (LAction (buf ++ ["}"%char; c])) d
  end.

Definition render (fmt : string) (d : AddressData) : option string :=
  string_of_list_ascii <$> render_chars (list_ascii_of_string fmt) LText d.

Definition nl : string := String (ascii_of_nat 10) EmptyString.

(** The default address format of [DisplayAddress]. *)
Definition default_address_format : string :=
  "{{ .Street }}" ++ nl ++ "{{ .Street2 }}" ++ nl ++ "{{ .City }} {{ .StateCode }} {{ .Zip }}"
  ++ nl ++ "{{ .CountryName}}".

(** [DisplayAddress(withoutCompany)]. *)
Definition DisplayAddress (countries : gmap nat CountryRec) (states : gmap nat StateRec)
    (db : DB) (e : nat) (withoutCompany : bool) : option string :=
  let country := ref_of (get_field db e Country) ≫= fun c => countries !! c in
  let state := ref_of (get_field db e State) ≫= fun s => states !! s in
  let addressFormat := default "" (country_AddressFormat <$> country) in
  let addressFormat := if String.eqb addressFormat "" then default_address_format
                       else addressFormat in
  let data : AddressData :=
    [("Street", str_of (get_field db e Street)); ("Street2", str_of (get_field db e Street2));
     ("City", str_of (get_field db e City)); ("Zip", str_of (get_field db e Zip));
     ("StateCode", default "" (state_Code <$> state));
     ("StateName", default "" (state_Name <$> state));
     ("CountryCode", default "" (country_Code <$> country));
     ("CountryName", default "" (country_Name <$> country));
     ("CompanyName", CommercialCompanyName db e)] in
  let addressFormat := if String.eqb (CommercialCompanyName db e) "" then addressFormat
                       else "{{ .CompanyName }}" ++ nl ++ addressFormat in
  render addressFormat data.

(** Sample tables for the concrete runs below. *)

(** A lone invoice address. *)
Definition db_invoice : DB := <[5 := mk [(Name, VStr "I"); (Type_, VStr "invoice")]]> ∅.

(** A company without address and one active contact under it. *)
Definition db_company : DB :=
  <[1 := mk [(Name, VStr "A"); (IsCompany, VBool true)]]>
  (<[2 := mk [(Name, VStr "B"); (Parent, VRef (Some 1))]]> ∅).

Definition is_external (o : Origin) : bool :=
  match o with OExternal => true | _ => false end.

(** ** Company type *)

(** [ComputeCompanyType] *)
Definition ComputeCompanyType (db : DB) (e : nat) : string :=
  if is_company db e then "company" else "person".

(** [InverseCompanyType]: [rs.SetIsCompany(companyType == "company")], a
    [Write] of [IsCompany] on the record set, in the caller's context. *)
Definition InverseCompanyType (n : nat) (ctx : list string) (ids : list nat) (companyType : string)
    : M unit :=
  Write n ctx ids [(IsCompany, VBool (String.eqb companyType "company"))] OExternal.


(** ** Partner tags *)

(** A PartnerCategory record: its [Name] and its [Parent] tag ([None] is
    the empty record set). *)
Record Category := mkCategory { cat_Name : string; cat_Parent : option nat }.

Definition CatDB := gmap nat Category.

(** Go's [strings.Join]. *)
Fixpoint Join (elems : list string) (sep : string) : string :=
  match elems with
  | [] => ""
  | [x] => x
  | x :: rest => x ++ sep ++ Join rest sep
  end.

(** Go's [strings.Index]: the position of the first occurrence of [sep]
    in [s]. *)
Fixpoint Index (s sep : string) : option nat :=
  if String.prefix sep s then Some 0
  else match s with
       | EmptyString => None
       | String _ s' => S <$> Index s' sep
       end.

(** The loop of Go's [strings.Split] (genSplit with n = -1): cut [s] at
    the first occurrence of [sep], keep [s[:m]], go on with
    [s[m+len(sep):]].  For a non-empty separator every round drops at
    least one byte, so [length s] rounds are enough. *)
Fixpoint split_loop (fuel : nat) (s sep : string) : list string :=
  match fuel with
  | 0 => [s]
  | S fuel =>
      match Index s sep with
      | None => [s]
      | Some m =>
          substring 0 m s ::
          split_loop fuel (substring (m + String.length sep) (String.length s - (m + String.length sep)) s) sep
      end
  end.

Definition Split (s sep : string) : list string := split_loop (String.length s) s sep.

(** The loop of the tag [NameGet]: [names] is prepended with the name of
    [current] until [current] is empty.  [None] when the fuel runs out
    (the Go loop does not end on a cycle, which [CheckParent] rules out). *)
Fixpoint category_names (fuel : nat) (cats : CatDB) (current : option nat)
    (names : list string) : option (list string) :=
  match current ≫= fun i => cats !! i with
  | None => Some names
  | Some c =>
      match fuel with
      | 0 => None
      | S fuel => category_names fuel cats (cat_Parent c) (cat_Name c :: names)
      end
  end.

(** PartnerCategory [NameGet], for [display] the context value of
    [partner_category_display]; the short form is the inherited
    [NameGet], the tag's name. *)
Definition Category_NameGet (fuel : nat) (cats : CatDB) (display : string) (i : nat)
    : option string :=
  if String.eqb display "short" then Some (default "" (cat_Name <$> cats !! i))
  else (fun names => Join names " / ") <$> category_names fuel cats (Some i) [].

(** PartnerCategory [SearchByName]: the name handed to the inherited
    search, the last " / "-separated token of [name]. *)
Definition Category_SearchByName_name (name : string) : string :=
  if String.eqb name "" then name
  else let tokens := Split name " / " in default "" (last tokens).

(** Three nested tags. *)
Definition cats_ex : CatDB :=
  <[1 := mkCategory "Customers" None]> (<[2 := mkCategory "Retail" (Some 1)]>
  (<[3 := mkCategory "Gold" (Some 2)]> ∅)).

(** * Properties *)

(** ** Hierarchy and commercial resolution *)

Lemma ends_within_S (n : nat) (db : DB) (e : nat) :
  ends_within n db e = true -> ends_within (S n) db e = true.
Proof.
  revert e. induction n as [|n IH]; intros e H; simpl in *;
    destruct (parent_of db e) as [q|]; auto; discriminate.
Qed.

Lemma ends_within_step (n : nat) (db : DB) (e q : nat) :
  parent_of db e = Some q -> ends_within n db e = true ->
  exists k, n = S k /\ ends_within k db q = true.
Proof.
  intros Hp H. destruct n as [|k]; simpl in H; rewrite Hp in H; [discriminate|eauto].
Qed.

Lemma acyclic_b_spec (db : DB) : acyclic_b db = true -> acyclic db.
Proof.
  unfold acyclic_b, acyclic. intros H e.
  destruct (db !! e) as [r|] eqn:He.
  - apply forallb_forall with (x := (e, r)) in H; [exact H|].
    apply list_elem_of_In, elem_of_map_to_list. exact He.
  - assert (Hp : parent_of db e = None) by (unfold parent_of, get_field; rewrite He; reflexivity).
    destruct (size db); simpl; rewrite Hp; reflexivity.
Qed.

Lemma cp_fuel_root (n : nat) (db : DB) (e : nat) :
  is_company db e = true \/ parent_of db e = None -> cp_fuel n db e = e.
Proof.
  intros H. destruct n as [|n]; [reflexivity|]. simpl. unfold ComputeCommercialPartner.
  destruct H as [H|H]; rewrite H; [reflexivity|]. destruct (negb _); reflexivity.
Qed.

(** Once the chain from [e] ends within [n] steps, more fuel changes
    nothing. *)
Lemma cp_fuel_enough (n m : nat) (db : DB) (e : nat) :
  ends_within n db e = true -> n <= m -> cp_fuel m db e = cp_fuel n db e.
Proof.
  revert e m. induction n as [|n IH]; intros e m H Hle.
  - simpl in H. destruct (parent_of db e) eqn:Hp; [discriminate|].
    rewrite cp_fuel_root by auto. reflexivity.
  - destruct m as [|m]; [lia|]. simpl. unfold ComputeCommercialPartner.
    simpl in H. destruct (parent_of db e) as [q|]; [|reflexivity].
    rewrite (IH q m H) by lia. reflexivity.
Qed.

Lemma cp_fuel_end (n : nat) (db : DB) (e : nat) :
  ends_within n db e = true ->
  is_company db (cp_fuel n db e) = true \/ parent_of db (cp_fuel n db e) = None.
Proof.
  revert e. induction n as [|n IH]; intros e H; simpl in *.
  - destruct (parent_of db e); [discriminate|auto].
  - unfold ComputeCommercialPartner.
    destruct (is_company db e) eqn:Hc; simpl; [auto|].
    destruct (parent_of db e) as [q|] eqn:Hp; auto.
Qed.

(** The stored commercial partner satisfies the compute method. *)
Lemma CommercialPartner_eq (db : DB) (e : nat) :
  acyclic db ->
  CommercialPartner db e = ComputeCommercialPartner (CommercialPartner db) db e.
Proof.
  intros Hac. unfold CommercialPartner.
  pose proof (Hac e) as He.
  destruct (parent_of db e) as [q|] eqn:Hp.
  - destruct (ends_within_step _ _ _ _ Hp He) as [k [Hk Hq]].
    rewrite Hk. change (cp_fuel (S k) db e) with (ComputeCommercialPartner (cp_fuel k db) db e).
    unfold ComputeCommercialPartner. rewrite Hp.
    rewrite (cp_fuel_enough k (S k) db q Hq) by lia. reflexivity.
  - rewrite cp_fuel_root by auto. unfold ComputeCommercialPartner. rewrite Hp.
    destruct (negb _); reflexivity.
Qed.

(** ** Frame of the synchroniser *)

(** Fields the synchroniser's own writes carry. *)
Definition sync_field (f : FieldName) : bool :=
  bool_decide (f ∈ (AddressFields ++ CommercialFields)%list).

Definition sync_data (d : PartnerData) : Prop := Forall (fun p => sync_field p.1 = true) d.

(** Same records, same values outside the synchronised fields. *)
Definition frame (db db' : DB) : Prop :=
  (forall e, is_Some (db !! e) <-> is_Some (db' !! e)) /\
  (forall e f, sync_field f = false -> get_field db' e f = get_field db e f).

(** Records outside [S] are untouched. *)
Definition outside (S : nat -> Prop) (db db' : DB) : Prop :=
  forall e, ~ S e -> db' !! e = db !! e.

Definition Rel (S : nat -> Prop) (db db' : DB) : Prop := frame db db' /\ outside S db db'.

(** [a] is a strict ancestor of [e]. *)
Inductive anc (db : DB) (a : nat) : nat -> Prop :=
  | anc_parent e : parent_of db e = Some a -> anc db a e
  | anc_step e b : parent_of db e = Some b -> anc db a b -> anc db a e.

Definition dos (db : DB) (y e : nat) : Prop := e = y \/ anc db y e.

Lemma frame_refl (db : DB) : frame db db.
Proof. split; [tauto|reflexivity]. Qed.

Lemma frame_trans (db1 db2 db3 : DB) : frame db1 db2 -> frame db2 db3 -> frame db1 db3.
Proof.
  intros [H1 H1'] [H2 H2']. split.
  - intros e. rewrite H1. apply H2.
  - intros e f Hf. rewrite H2', H1'; auto.
Qed.

Lemma Rel_refl (S : nat -> Prop) (db : DB) : Rel S db db.
Proof. split; [apply frame_refl|intros e _; reflexivity]. Qed.

Lemma Rel_trans (S1 S2 : nat -> Prop) (db1 db2 db3 : DB) :
  Rel S1 db1 db2 -> Rel S2 db2 db3 -> (forall e, S2 e -> S1 e) -> Rel S1 db1 db3.
Proof.
  intros [F1 O1] [F2 O2] Hs. split; [eapply frame_trans; eauto|].
  intros e He. rewrite O2 by auto. apply O1, He.
Qed.

Lemma Rel_mono (S S' : nat -> Prop) (db db' : DB) :
  Rel S db db' -> (forall e, S e -> S' e) -> Rel S' db db'.
Proof. intros [F O] Hs. split; [exact F|]. intros e He. apply O. auto. Qed.

Lemma frame_field (db db' : DB) (e : nat) (f : FieldName) :
  frame db db' -> sync_field f = false -> get_field db' e f = get_field db e f.
Proof. intros [_ H] Hf. apply H, Hf. Qed.

Lemma frame_parent (db db' : DB) (e : nat) : frame db db' -> parent_of db' e = parent_of db e.
Proof. intros F. unfold parent_of. rewrite (frame_field db db'); auto. Qed.

Lemma frame_is_company (db db' : DB) (e : nat) : frame db db' -> is_company db' e = is_company db e.
Proof. intros F. unfold is_company. rewrite (frame_field db db'); auto. Qed.

Lemma frame_is_active (db db' : DB) (e : nat) : frame db db' -> is_active db' e = is_active db e.
Proof. intros F. unfold is_active. rewrite (frame_field db db'); auto. Qed.

Lemma frame_type_of (db db' : DB) (e : nat) : frame db db' -> type_of db' e = type_of db e.
Proof. intros F. unfold type_of. rewrite (frame_field db db'); auto. Qed.

Lemma frame_size (db db' : DB) : frame db db' -> size db' = size db.
Proof.
  intros [H _]. rewrite <- (size_dom db), <- (size_dom db').
  f_equal. apply set_eq. intros e. rewrite !elem_of_dom. symmetry. apply H.
Qed.

Lemma frame_ends_within (n : nat) (db db' : DB) (e : nat) :
  frame db db' -> ends_within n db' e = ends_within n db e.
Proof.
  intros F. revert e. induction n as [|n IH]; intros e; simpl;
    rewrite (frame_parent db db' e F); destruct (parent_of db e); auto.
Qed.

Lemma frame_acyclic (db db' : DB) : frame db db' -> acyclic db -> acyclic db'.
Proof.
  intros F H e. rewrite (frame_size db db' F), (frame_ends_within _ db db' e F). apply H.
Qed.

Lemma frame_cp_fuel (n : nat) (db db' : DB) (e : nat) :
  frame db db' -> cp_fuel n db' e = cp_fuel n db e.
Proof.
  intros F. revert e. induction n as [|n IH]; intros e; [reflexivity|]. simpl.
  unfold ComputeCommercialPartner.
  rewrite (frame_is_company db db' e F), (frame_parent db db' e F).
  destruct (negb _); [|reflexivity]. destruct (parent_of db e); auto.
Qed.

Lemma frame_cp (db db' : DB) (e : nat) :
  frame db db' -> CommercialPartner db' e = CommercialPartner db e.
Proof.
  intros F. unfold CommercialPartner. rewrite (frame_size db db' F). apply frame_cp_fuel, F.
Qed.

Lemma frame_anc (db db' : DB) (a e : nat) : frame db db' -> anc db' a e <-> anc db a e.
Proof.
  intros F. split; intros H; induction H as [e Hp|e b Hp _ IH].
  - apply anc_parent. rewrite <- (frame_parent db db' e F). exact Hp.
  - eapply anc_step; [|exact IH]. rewrite <- (frame_parent db db' e F). exact Hp.
  - apply anc_parent. rewrite (frame_parent db db' e F). exact Hp.
  - eapply anc_step; [|exact IH]. rewrite (frame_parent db db' e F). exact Hp.
Qed.

Lemma frame_dos (db db' : DB) (a e : nat) : frame db db' -> dos db' a e <-> dos db a e.
Proof. intros F. unfold dos. rewrite (frame_anc db db' a e F). tauto. Qed.

Lemma anc_trans (db : DB) (a b e : nat) : anc db a b -> anc db b e -> anc db a e.
Proof.
  intros Hab Hbe. induction Hbe as [e Hp|e c Hp _ IH].
  - eapply anc_step; eauto.
  - eapply anc_step; eauto.
Qed.

Lemma elem_of_Children (db : DB) (y c : nat) :
  c ∈ Children db y <-> is_Some (db !! c) /\ parent_of db c = Some y /\ is_active db c = true.
Proof.
  unfold Children. rewrite list_elem_of_fmap. split.
  - intros [[k r] [-> Hin]]. apply list_elem_of_filter in Hin as [[Hp Ha] Hin].
    apply elem_of_map_to_list in Hin. simpl in *.
    unfold parent_of, is_active, get_field. rewrite Hin. eauto.
  - intros [[r Hr] [Hp Ha]]. exists (c, r). split; [reflexivity|].
    apply list_elem_of_filter. unfold parent_of, is_active, get_field in *. rewrite Hr in *.
    split; [auto|]. apply elem_of_map_to_list, Hr.
Qed.

Lemma Children_anc (db : DB) (y c : nat) : c ∈ Children db y -> anc db y c.
Proof. intros H. apply elem_of_Children in H as (_ & Hp & _). apply anc_parent, Hp. Qed.

Lemma frame_Children (db db' : DB) (y c : nat) :
  frame db db' -> c ∈ Children db' y <-> c ∈ Children db y.
Proof.
  intros F. rewrite !elem_of_Children, (frame_parent db db' c F), (frame_is_active db db' c F).
  destruct F as [H _]. rewrite (H c). tauto.
Qed.

(** *** Monad steps *)

Lemma mbind_inv {A B} (m : M A) (k : A -> M B) (s : St) (b : B) (s' : St) :
  mbind m k s = Some (b, s') -> exists a s1, m s = Some (a, s1) /\ k a s1 = Some (b, s').
Proof. unfold mbind. destruct (m s) as [[a s1]|]; [eauto|discriminate]. Qed.

Ltac bind_inv H :=
  let a := fresh "a" in let s := fresh "s" in let Hm := fresh "Hm" in
  apply mbind_inv in H as (a & s & Hm & H).

Lemma mbind_read {B} (k : DB -> M B) (s : St) : mbind read_db k s = k (st_db s) s.
Proof. reflexivity. Qed.

Lemma mret_inv {A} (a b : A) (s s' : St) : mret a s = Some (b, s') -> s' = s.
Proof. unfold mret. congruence. Qed.

Lemma emit_db (ev : Event) (s : St) (u : unit) (s' : St) :
  emit ev s = Some (u, s') -> st_db s' = st_db s /\ st_log s' = (st_log s ++ [ev])%list.
Proof. unfold emit. intros H. injection H as <- <-. split; reflexivity. Qed.

Lemma if_ret_Rel (S : nat -> Prop) (b : bool) (m : M unit) (s : St) (u : unit) (s' : St) :
  (b = true -> m s = Some (u, s') -> Rel S (st_db s) (st_db s')) ->
  (if b then m else mret tt) s = Some (u, s') -> Rel S (st_db s) (st_db s').
Proof.
  intros Hm H. destruct b; [auto|]. apply mret_inv in H. subst. apply Rel_refl.
Qed.

Lemma iterM_Rel {A} (S : nat -> Prop) (db0 : DB) (f : A -> M unit) (l : list A) :
  (forall x s u s', x ∈ l -> frame db0 (st_db s) -> f x s = Some (u, s') ->
     Rel S (st_db s) (st_db s')) ->
  forall s u s', frame db0 (st_db s) -> iterM f l s = Some (u, s') ->
    Rel S (st_db s) (st_db s').
Proof.
  induction l as [|x l IH]; intros Hf s u s' F0 H; simpl in H.
  - apply mret_inv in H. subst. apply Rel_refl.
  - bind_inv H.
    assert (R1 : Rel S (st_db s) (st_db s0)) by (eapply Hf; eauto; left).
    assert (R2 : Rel S (st_db s0) (st_db s')).
    { eapply IH; [|eapply frame_trans; [exact F0|apply R1]|exact H].
      intros y s2 u2 s3 Hy; eapply Hf; right; exact Hy. }
    eapply Rel_trans; eauto.
Qed.

(** *** The ORM write *)

Lemma foldl_alter_notin (g : Partner -> Partner) (ids : list nat) (db : DB) (e : nat) :
  e ∉ ids -> foldl (fun acc i => alter g i acc) db ids !! e = db !! e.
Proof.
  revert db. induction ids as [|i ids IH]; intros db He; [reflexivity|]. simpl.
  rewrite IH by set_solver. apply lookup_alter_ne. set_solver.
Qed.

Lemma foldl_alter_rel (P : Partner -> Partner -> Prop) (g : Partner -> Partner)
    (ids : list nat) (db : DB) (e : nat) :
  (forall r, P r r) -> (forall r1 r2 r3, P r1 r2 -> P r2 r3 -> P r1 r3) ->
  (forall r, P r (g r)) ->
  match db !! e, foldl (fun acc i => alter g i acc) db ids !! e with
  | Some r, Some r' => P r r'
  | None, None => True
  | _, _ => False
  end.
Proof.
  intros Hr Ht Hg. revert db. induction ids as [|i ids IH]; intros db; simpl.
  - destruct (db !! e); auto.
  - specialize (IH (alter g i db)). rewrite lookup_alter in IH.
    destruct (decide (i = e)) as [->|]; [|exact IH].
    destruct (db !! e) as [r|]; simpl in *; [|exact IH].
    destruct (foldl _ _ _ !! e); eauto.
Qed.

Lemma foldl_alter_written (g : Partner -> Partner) (ids : list nat) (db : DB)
    (e : nat) (f : FieldName) (v : Value) :
  (forall r, g r f = v) -> e ∈ ids -> is_Some (db !! e) ->
  get_field (foldl (fun acc i => alter g i acc) db ids) e f = v.
Proof.
  intros Hg. revert db. induction ids as [|i ids IH]; intros db Hin Hs;
    [set_solver|]. simpl.
  destruct (decide (e ∈ ids)) as [Hin'|Hnot].
  - apply IH; [exact Hin'|]. rewrite lookup_alter. destruct (decide _) as [->|]; auto.
    destruct Hs as [r Hr]. rewrite Hr. eauto.
  - assert (e = i) as -> by set_solver.
    unfold get_field. rewrite foldl_alter_notin by exact Hnot. rewrite lookup_alter_eq.
    destruct Hs as [r Hr]. rewrite Hr. simpl. apply Hg.
Qed.

Lemma data_get_sync (d : PartnerData) (f : FieldName) (v : Value) :
  sync_data d -> data_get d f = Some v -> sync_field f = true.
Proof.
  induction 1 as [|[g w] d Hg Hd IH]; simpl; [discriminate|].
  destruct (decide (g = f)) as [->|]; auto.
Qed.

Lemma sync_data_no_parent (d : PartnerData) :
  sync_data d -> parent_set d = false /\ data_has d Parent = false.
Proof.
  intros Hd. unfold parent_set, data_has.
  destruct (data_get d Parent) eqn:E; [|auto].
  apply data_get_sync in E; [discriminate|exact Hd].
Qed.

Lemma super_write_inv (ids : list nat) (vals : PartnerData) (s : St) (u : unit) (s' : St) :
  super_write ids vals s = Some (u, s') ->
  st_db s' = foldl (fun acc i => alter (apply_data vals) i acc) (st_db s) ids /\
  st_log s' = st_log s /\
  (data_has vals Parent = true -> CheckParent (st_db s') = true).
Proof.
  unfold super_write. rewrite mbind_read.
  destruct (data_has vals Parent && negb (CheckParent _)) eqn:E; [discriminate|].
  unfold put_db. intros H. injection H as <- <-. simpl. repeat split.
  intros Hp. rewrite Hp in E. destruct (CheckParent _); [reflexivity|discriminate].
Qed.

Lemma super_write_Rel (ids : list nat) (vals : PartnerData) (s : St) (u : unit) (s' : St) :
  sync_data vals -> super_write ids vals s = Some (u, s') ->
  Rel (fun e => e ∈ ids) (st_db s) (st_db s').
Proof.
  intros Hd H. apply super_write_inv in H as (-> & _ & _).
  split; [split|].
  - intros e. pose proof (foldl_alter_rel (fun _ _ => True) (apply_data vals) ids (st_db s) e)
      as Hr. simpl in Hr.
    destruct (st_db s !! e), (foldl _ _ _ !! e); split; intros; try done;
      exfalso; apply Hr; auto.
  - intros e f Hf.
    pose proof (foldl_alter_rel (fun r r' => r' f = r f) (apply_data vals) ids (st_db s) e)
      as Hr. unfold get_field.
    assert (Hg : forall r, apply_data vals r f = r f).
    { intros r. unfold apply_data. destruct (data_get vals f) eqn:E; [|reflexivity].
      apply data_get_sync in E; [congruence|exact Hd]. }
    specialize (Hr (fun r => eq_refl) (fun r1 r2 r3 H1 H2 => eq_trans H2 H1) Hg).
    destruct (st_db s !! e), (foldl _ _ _ !! e); tauto.
  - intros e He. apply foldl_alter_notin, He.
Qed.

(** *** Each synchroniser call only touches synchronised fields of the
    written partners and of their descendants *)

Lemma UpdateFieldValues_sync (db : DB) (e : nat) (fs : list FieldName) :
  Forall (fun f => sync_field f = true) fs -> sync_data (UpdateFieldValues db e fs).
Proof. induction 1; constructor; auto. Qed.

Lemma commercial_sync (db : DB) (e : nat) : sync_data (UpdateFieldValues db e CommercialFields).
Proof. apply UpdateFieldValues_sync. repeat constructor. Qed.

Lemma address_sync (db : DB) (e : nat) : sync_data (UpdateFieldValues db e AddressFields).
Proof. apply UpdateFieldValues_sync. repeat constructor. Qed.

Lemma address_part_sync (vals : PartnerData) : sync_data (address_part vals).
Proof.
  unfold address_part.
  assert (H : Forall (fun f => sync_field f = true) AddressFields) by (repeat constructor).
  induction H as [|f fs Hf _ IH]; simpl; [constructor|].
  destruct (data_get vals f); simpl; [constructor|]; auto.
Qed.

Lemma Rel_seq (S : nat -> Prop) (db1 db2 db3 : DB) :
  Rel S db1 db2 -> Rel S db2 db3 -> Rel S db1 db3.
Proof. intros R1 R2. eapply Rel_trans; eauto. Qed.

Definition Write_Rel (n : nat) : Prop :=
  forall ctx ids vals o s u s', sync_data vals -> Write n ctx ids vals o s = Some (u, s') ->
    Rel (fun e => exists i, i ∈ ids /\ dos (st_db s) i e) (st_db s) (st_db s').
Definition FieldsSync_Rel (n : nat) : Prop :=
  forall ctx y vals s u s', FieldsSync n ctx y vals s = Some (u, s') ->
    Rel (dos (st_db s) y) (st_db s) (st_db s').
Definition CommercialSyncFromCompany_Rel (n : nat) : Prop :=
  forall ctx y s u s', CommercialSyncFromCompany n ctx y s = Some (u, s') ->
    Rel (dos (st_db s) y) (st_db s) (st_db s').
Definition CommercialSyncToChildren_Rel (n : nat) : Prop :=
  forall ctx x s u s', CommercialSyncToChildren n ctx x s = Some (u, s') ->
    Rel (anc (st_db s) x) (st_db s) (st_db s').
Definition UpdateAddress_Rel (n : nat) : Prop :=
  forall ctx ids vals s u s', UpdateAddress n ctx ids vals s = Some (u, s') ->
    Rel (fun e => exists i, i ∈ ids /\ dos (st_db s) i e) (st_db s) (st_db s').

(** Step 2 of [FieldsSync] (to downstream), as it runs after steps 1a
    and 1b. *)
Definition FieldsSync_downstream (m : nat) (ctx : list string) (y : nat) (vals : PartnerData)
    : M unit :=
  let* db := read_db in
  match Children db y with
  | [] => mret tt
  | _ =>
      let* _ := (if Nat.eqb y (CommercialPartner db y) &&
                    existsb (fun f => negb (IsZero (get_field db y f))) CommercialFields
                 then CommercialSyncToChildren m ctx y else mret tt) in
      let* db := read_db in
      let* _ := (if existsb (fun c => negb (Nat.eqb (CommercialPartner db c) (CommercialPartner db y)))
                           (non_company db (Children db y))
                 then CommercialSyncToChildren m ctx y else mret tt) in
      let* db := read_db in
      if existsb (data_has vals) AddressFields
      then UpdateAddress m ctx (filter (fun c => type_of db c = "contact") (Children db y)) vals
      else mret tt
  end.

Lemma downstream_Rel (m : nat) :
  CommercialSyncToChildren_Rel m -> UpdateAddress_Rel m ->
  forall ctx y vals s u s', FieldsSync_downstream m ctx y vals s = Some (u, s') ->
    Rel (anc (st_db s) y) (st_db s) (st_db s').
Proof.
  intros IHT IHU ctx y vals s u s' H. unfold FieldsSync_downstream in H.
  rewrite mbind_read in H.
  destruct (Children (st_db s) y) as [|c cs] eqn:Hch.
  { apply mret_inv in H. subst. apply Rel_refl. }
  bind_inv H.
  assert (R1 : Rel (anc (st_db s) y) (st_db s) (st_db s0)).
  { eapply if_ret_Rel; [|exact Hm]. intros _ Hc. apply IHT in Hc. exact Hc. }
  clear Hm. rewrite mbind_read in H. bind_inv H.
  assert (R2 : Rel (anc (st_db s) y) (st_db s0) (st_db s1)).
  { eapply if_ret_Rel; [|exact Hm]. intros _ Hc. apply IHT in Hc.
    eapply Rel_mono; [exact Hc|]. intros e He.
    apply (frame_anc (st_db s) (st_db s0)); [apply R1|exact He]. }
  clear Hm. pose proof (Rel_seq _ _ _ _ R1 R2) as R12.
  rewrite mbind_read in H.
  eapply Rel_seq; [exact R12|].
  eapply if_ret_Rel; [|exact H]. intros _ Hc. apply IHU in Hc.
  eapply Rel_mono; [exact Hc|]. intros e (i & Hi & Hdos).
  apply list_elem_of_filter in Hi as [_ Hi]. apply Children_anc in Hi.
  apply (frame_anc (st_db s) (st_db s1)); [apply R12|].
  destruct Hdos as [->|Hdos]; [exact Hi|eapply anc_trans; eauto].
Qed.

Lemma sync_Rel (n : nat) :
  Write_Rel n /\ FieldsSync_Rel n /\ CommercialSyncFromCompany_Rel n /\
  CommercialSyncToChildren_Rel n /\ UpdateAddress_Rel n.
Proof.
  induction n as [|m (IHW & IHF & IHC & IHT & IHU)].
  { repeat split; intros *; try intros _; cbn; discriminate. }
  split; [|split; [|split; [|split]]].
  - (* Write *)
    intros ctx ids vals o s u s' Hd H. cbn [Write] in H.
    destruct (sync_data_no_parent vals Hd) as [Hps _].
    destruct (has_key ctx "goto_super").
    + bind_inv H. apply emit_db in Hm as [Hdb _].
      apply super_write_Rel in H; [|exact Hd]. rewrite Hdb in H.
      eapply Rel_mono; [exact H|]. intros e He. exists e. split; [exact He|left; reflexivity].
    + rewrite Hps in H. bind_inv H. apply emit_db in Hm as [Hdb _]. bind_inv H.
      apply super_write_Rel in Hm; [|exact Hd]. rewrite Hdb in Hm.
      eapply Rel_seq.
      { eapply Rel_mono; [exact Hm|]. intros e He. exists e. split; [exact He|left; reflexivity]. }
      eapply (iterM_Rel _ (st_db s)); [|apply Hm|exact H].
      intros i s2 u2 s3 Hi F Hc. apply IHF in Hc.
      eapply Rel_mono; [exact Hc|]. intros e He. exists i. split; [exact Hi|].
      apply (frame_dos (st_db s) (st_db s2)); [exact F|exact He].
  - (* FieldsSync *)
    intros ctx y vals s u s' H. cbn [FieldsSync] in H.
    bind_inv H.
    assert (R1 : Rel (dos (st_db s) y) (st_db s) (st_db s0)).
    { eapply if_ret_Rel; [|exact Hm]. intros _ Hc. exact (IHC _ _ _ _ _ Hc). }
    clear Hm.
    rewrite mbind_read in H. bind_inv H.
    assert (R2 : Rel (dos (st_db s) y) (st_db s0) (st_db s1)).
    { eapply if_ret_Rel; [|exact Hm]. intros _ Hc. apply IHU in Hc.
      eapply Rel_mono; [exact Hc|]. intros e (i & Hi & Hdos).
      apply list_elem_of_singleton in Hi as ->.
      apply (frame_dos (st_db s) (st_db s0)); [apply R1|exact Hdos]. }
    clear Hm. pose proof (Rel_seq _ _ _ _ R1 R2) as R12.
    change (FieldsSync_downstream m ctx y vals s1 = Some (u, s')) in H.
    apply (downstream_Rel m IHT IHU) in H.
    eapply Rel_seq; [exact R12|]. eapply Rel_mono; [exact H|].
    intros e He. right. apply (frame_anc (st_db s) (st_db s1)); [apply R12|exact He].
  - (* CommercialSyncFromCompany *)
    intros ctx y s u s' H. cbn [CommercialSyncFromCompany] in H. rewrite mbind_read in H.
    destruct (Nat.eqb y (CommercialPartner (st_db s) y)).
    { apply mret_inv in H. subst. apply Rel_refl. }
    apply IHW in H; [|apply commercial_sync].
    eapply Rel_mono; [exact H|]. intros e (i & Hi & Hdos).
    apply list_elem_of_singleton in Hi as ->. exact Hdos.
  - (* CommercialSyncToChildren *)
    intros ctx x s u s' H. cbn [CommercialSyncToChildren] in H. rewrite mbind_read in H.
    destruct (non_company (st_db s) (Children (st_db s) x)) as [|c cs] eqn:Hnc.
    { apply mret_inv in H. subst. apply Rel_refl. }
    assert (Hin : forall i, i ∈ c :: cs -> anc (st_db s) x i).
    { intros i Hi. rewrite <- Hnc in Hi. unfold non_company in Hi.
      apply list_elem_of_filter in Hi as [_ Hi]. apply Children_anc, Hi. }
    bind_inv H.
    assert (R1 : Rel (anc (st_db s) x) (st_db s) (st_db s0)).
    { eapply (iterM_Rel _ (st_db s)); [|apply frame_refl|exact Hm].
      intros i s1 u1 s2 Hi F Hc. apply IHT in Hc.
      eapply Rel_mono; [exact Hc|]. intros e He.
      apply (frame_anc _ _ _ _ F) in He. eapply anc_trans; [apply Hin, Hi|exact He]. }
    apply IHW in H; [|apply commercial_sync].
    eapply Rel_trans; [exact R1|exact H|]. intros e (i & Hi & Hdos).
    destruct Hdos as [->|Hd]; [apply Hin, Hi|].
    apply (frame_anc _ _ _ _ (proj1 R1)) in Hd. eapply anc_trans; [apply Hin, Hi|exact Hd].
  - (* UpdateAddress *)
    intros ctx ids vals s u s' H. cbn [UpdateAddress] in H.
    destruct (address_part vals) as [|p ps] eqn:Ha.
    { apply mret_inv in H. subst. apply Rel_refl. }
    apply IHW in H; [exact H|]. rewrite <- Ha. apply address_part_sync.
Qed.

(** *** The tree under acyclicity *)

Lemma ends_within_mono (n : nat) (db : DB) (e : nat) :
  ends_within n db e = true -> ends_within (S n) db e = true.
Proof.
  revert e. induction n as [|n IH]; intros e H; simpl in *;
    destruct (parent_of db e) as [q|]; auto; discriminate.
Qed.

Lemma anc_ends_within (db : DB) (a e : nat) (n : nat) :
  anc db a e -> ends_within n db e = true -> exists k, n = S k /\ ends_within k db a = true.
Proof.
  intros H. revert n. induction H as [e Hp|e b Hp _ IH]; intros n Hn.
  - apply (ends_within_step _ _ _ _ Hp Hn).
  - destruct (ends_within_step _ _ _ _ Hp Hn) as [k [-> Hk]].
    destruct (IH k Hk) as [j [-> Hj]]. exists (S j). split; [reflexivity|].
    apply ends_within_mono, Hj.
Qed.

Lemma anc_irrefl (db : DB) (x : nat) : acyclic db -> ~ anc db x x.
Proof.
  intros Hac Hx. pose proof (Hac x) as H. revert H. generalize (size db) as n.
  induction n as [n IH] using lt_wf_ind. intros H.
  destruct (anc_ends_within _ _ _ _ Hx H) as [k [-> Hk]]. apply (IH k); [lia|exact Hk].
Qed.

Lemma parent_is_Some (db : DB) (e p : nat) : parent_of db e = Some p -> is_Some (db !! e).
Proof.
  unfold parent_of, get_field. destruct (db !! e); [eauto|discriminate].
Qed.

Lemma parent_not_dos (db : DB) (e p : nat) :
  acyclic db -> parent_of db e = Some p -> ~ dos db e p.
Proof.
  intros Hac Hp [->|Ha]; apply (anc_irrefl db e Hac).
  - apply anc_parent, Hp.
  - eapply anc_trans; [exact Ha|]. apply anc_parent, Hp.
Qed.

Lemma cp_fuel_anc (n : nat) (db : DB) (e : nat) :
  cp_fuel n db e = e \/ anc db (cp_fuel n db e) e.
Proof.
  revert e. induction n as [|n IH]; intros e; [auto|]. simpl. unfold ComputeCommercialPartner.
  destruct (negb _); [|auto]. destruct (parent_of db e) as [q|] eqn:Hp; [|auto].
  right. destruct (IH q) as [->|H].
  - apply anc_parent, Hp.
  - eapply anc_step; eauto.
Qed.

(** The commercial partner of [x] is not a strict descendant of [x]. *)
Lemma cp_not_desc (db : DB) (x : nat) :
  acyclic db -> ~ anc db x (CommercialPartner db x).
Proof.
  intros Hac H. unfold CommercialPartner in H.
  destruct (cp_fuel_anc (size db) db x) as [E|H'].
  - rewrite E in H. exact (anc_irrefl _ _ Hac H).
  - exact (anc_irrefl _ _ Hac (anc_trans _ _ _ _ H H')).
Qed.

Lemma cp_child (db : DB) (c x : nat) :
  acyclic db -> is_company db c = false -> parent_of db c = Some x ->
  CommercialPartner db c = CommercialPartner db x.
Proof.
  intros Hac Hc Hp. rewrite (CommercialPartner_eq db c Hac).
  unfold ComputeCommercialPartner. rewrite Hc, Hp. reflexivity.
Qed.

(** A partner with a non-company parent chain to [CommercialPartner x] is
    not its own commercial partner. *)
Lemma cp_child_neq (db : DB) (c x : nat) :
  acyclic db -> is_company db c = false -> parent_of db c = Some x ->
  CommercialPartner db c <> c.
Proof.
  intros Hac Hc Hp E. rewrite (cp_child db c x Hac Hc Hp) in E.
  apply (anc_irrefl db c Hac).
  unfold CommercialPartner in E.
  destruct (cp_fuel_anc (size db) db x) as [E'|H].
  - rewrite E' in E. subst x. apply anc_parent, Hp.
  - rewrite E in H. eapply anc_trans; [exact H|]. apply anc_parent, Hp.
Qed.

(** Acyclicity only depends on the parent links and on the number of
    records. *)
Lemma acyclic_parents (db db' : DB) :
  (forall e, parent_of db' e = parent_of db e) -> size db <= size db' ->
  acyclic db -> acyclic db'.
Proof.
  intros Hp Hs Hac e.
  assert (Hsame : forall n x, ends_within n db' x = ends_within n db x).
  { induction n as [|n IH]; intros x; simpl; rewrite Hp; [reflexivity|].
    destruct (parent_of db x); auto. }
  rewrite Hsame.
  assert (Hk : forall k, ends_within (size db + k) db e = true).
  { induction k as [|k IH]; [rewrite Nat.add_0_r; apply Hac|].
    rewrite Nat.add_succ_r. apply ends_within_mono, IH. }
  replace (size db') with (size db + (size db' - size db)) by lia. apply Hk.
Qed.

(** *** Effects of single writes *)

Lemma size_same_dom (db db' : DB) :
  (forall e, is_Some (db !! e) <-> is_Some (db' !! e)) -> size db' = size db.
Proof.
  intros H. rewrite <- (size_dom db), <- (size_dom db').
  f_equal. apply set_eq. intros e. rewrite !elem_of_dom. symmetry. apply H.
Qed.

Lemma foldl_alter_dom (g : Partner -> Partner) (ids : list nat) (db : DB) (e : nat) :
  is_Some (foldl (fun acc i => alter g i acc) db ids !! e) <-> is_Some (db !! e).
Proof.
  pose proof (foldl_alter_rel (fun _ _ => True) g ids db e) as Hr. simpl in Hr.
  destruct (db !! e), (foldl _ _ _ !! e); split; intros; try done; exfalso; apply Hr; auto.
Qed.

Lemma foldl_alter_field (g : Partner -> Partner) (ids : list nat) (db : DB) (e : nat)
    (f : FieldName) :
  (forall r, g r f = r f) -> get_field (foldl (fun acc i => alter g i acc) db ids) e f = get_field db e f.
Proof.
  intros Hg. pose proof (foldl_alter_rel (fun r r' => r' f = r f) g ids db e) as Hr.
  specialize (Hr (fun r => eq_refl) (fun r1 r2 r3 H1 H2 => eq_trans H2 H1) Hg).
  unfold get_field. destruct (db !! e), (foldl _ _ _ !! e); tauto.
Qed.

Lemma apply_data_other (vals : PartnerData) (r : Partner) (f : FieldName) :
  data_get vals f = None -> apply_data vals r f = r f.
Proof. intros H. unfold apply_data. rewrite H. reflexivity. Qed.

Lemma super_write_field (ids : list nat) (vals : PartnerData) (s : St) (u : unit) (s' : St)
    (e : nat) (f : FieldName) :
  data_get vals f = None -> super_write ids vals s = Some (u, s') ->
  get_field (st_db s') e f = get_field (st_db s) e f.
Proof.
  intros Hf H. apply super_write_inv in H as (-> & _ & _).
  apply foldl_alter_field. intros r. apply apply_data_other, Hf.
Qed.

Lemma super_write_acyclic (ids : list nat) (vals : PartnerData) (s : St) (u : unit) (s' : St) :
  acyclic (st_db s) -> super_write ids vals s = Some (u, s') -> acyclic (st_db s').
Proof.
  intros Hac H. pose proof H as H'. apply super_write_inv in H' as (Hdb & _ & Hchk).
  destruct (data_has vals Parent) eqn:E.
  - apply acyclic_b_spec, Hchk. reflexivity.
  - assert (Hp : data_get vals Parent = None)
      by (unfold data_has in E; destruct (data_get vals Parent); congruence).
    apply (acyclic_parents (st_db s)); [| |exact Hac].
    + intros e. unfold parent_of. erewrite super_write_field; eauto.
    + rewrite Hdb, (size_same_dom (st_db s) (foldl _ (st_db s) ids)); [lia|].
      intros e. symmetry. apply foldl_alter_dom.
Qed.

Lemma super_create_inv (vals : PartnerData) (s : St) (i : nat) (s' : St) :
  super_create vals s = Some (i, s') ->
  i = fresh (dom (st_db s)) /\
  st_db s' = <[i := apply_data vals default_partner]> (st_db s) /\
  st_log s' = st_log s /\
  (data_has vals Parent = true -> CheckParent (st_db s') = true).
Proof.
  unfold super_create. rewrite mbind_read.
  destruct (data_has vals Parent && negb (CheckParent _)) eqn:E; [discriminate|].
  unfold put_db, mbind, mret. intros H. injection H as <- <-. simpl. repeat split.
  intros Hp. rewrite Hp in E. destruct (CheckParent _); [reflexivity|discriminate].
Qed.

Lemma fresh_not_in (db : DB) : db !! fresh (dom db) = None.
Proof. apply not_elem_of_dom, is_fresh. Qed.

Lemma super_create_acyclic (vals : PartnerData) (s : St) (i : nat) (s' : St) :
  acyclic (st_db s) -> super_create vals s = Some (i, s') -> acyclic (st_db s').
Proof.
  intros Hac H. apply super_create_inv in H as (Hi & Hdb & _ & Hchk).
  destruct (data_has vals Parent) eqn:E.
  - apply acyclic_b_spec, Hchk. reflexivity.
  - assert (Hp : data_get vals Parent = None)
      by (unfold data_has in E; destruct (data_get vals Parent); congruence).
    assert (Hn : st_db s !! i = None) by (rewrite Hi; apply fresh_not_in).
    apply (acyclic_parents (st_db s)); [|rewrite Hdb, map_size_insert_None by exact Hn; lia|exact Hac].
    intros e. rewrite Hdb. unfold parent_of, get_field.
    destruct (decide (e = i)) as [->|Hne].
    + rewrite lookup_insert_eq, Hn. unfold apply_data. rewrite Hp. reflexivity.
    + rewrite lookup_insert_ne by congruence. reflexivity.
Qed.

Lemma address_part_other (vals : PartnerData) (f : FieldName) :
  f ∉ AddressFields -> data_get (address_part vals) f = None.
Proof.
  unfold address_part. intros Hf.
  assert (H : Forall (fun g => g <> f) AddressFields).
  { apply Forall_forall. intros g Hg ->. apply Hf, Hg. }
  clear Hf. induction H as [|g fs Hg _ IH]; simpl; [reflexivity|].
  destruct (data_get vals g); simpl; [|exact IH].
  destruct (decide (g = f)); [contradiction|exact IH].
Qed.

Lemma goto_super_key (ctx : list string) : has_key ("goto_super" :: ctx) "goto_super" = true.
Proof. reflexivity. Qed.

(** [UpdateAddress] writes address fields only. *)
Lemma UpdateAddress_field (n : nat) (ctx : list string) (ids : list nat) (vals : PartnerData)
    (s : St) (u : unit) (s' : St) (e : nat) (f : FieldName) :
  f ∉ AddressFields -> UpdateAddress n ctx ids vals s = Some (u, s') ->
  get_field (st_db s') e f = get_field (st_db s) e f.
Proof.
  intros Hf H. destruct n as [|m]; [discriminate|]. cbn [UpdateAddress] in H.
  destruct (address_part vals) as [|p ps] eqn:Ha.
  { apply mret_inv in H. subst. reflexivity. }
  destruct m as [|k]; [discriminate|]. cbn [Write] in H. rewrite goto_super_key in H.
  bind_inv H. apply emit_db in Hm as [Hdb _]. rewrite <- Hdb.
  eapply super_write_field; [|exact H]. rewrite <- Ha. apply address_part_other, Hf.
Qed.

(** [UpdateAddress] with the whole address of [p] on [c] copies it. *)
Lemma UpdateAddress_copies (n : nat) (ctx : list string) (c p : nat) (db : DB)
    (s : St) (u : unit) (s' : St) :
  UpdateAddress n ctx [c] (UpdateFieldValues db p AddressFields) s = Some (u, s') ->
  is_Some (st_db s !! c) ->
  forall f, f ∈ AddressFields -> get_field (st_db s') c f = get_field db p f.
Proof.
  intros H Hc f Hf. destruct n as [|m]; [discriminate|]. cbn [UpdateAddress] in H.
  assert (Ha : address_part (UpdateFieldValues db p AddressFields) =
    [(Street, get_field db p Street); (Street2, get_field db p Street2);
     (Zip, get_field db p Zip); (City, get_field db p City);
     (State, get_field db p State); (Country, get_field db p Country)]) by reflexivity.
  rewrite Ha in H. cbv beta iota in H.
  destruct m as [|k]; [discriminate|]. cbn [Write] in H. rewrite goto_super_key in H.
  bind_inv H. apply emit_db in Hm as [Hdb _].
  apply super_write_inv in H as (-> & _ & _). rewrite Hdb.
  apply foldl_alter_written; [|left|exact Hc].
  intros r. apply list_elem_of_In in Hf. simpl in Hf.
  unfold apply_data. intuition subst; reflexivity.
Qed.

(** *** The address pull of step 1b *)

Lemma nonzero_is_Some (db : DB) (e : nat) (f : FieldName) :
  IsZero (get_field db e f) = false -> is_Some (db !! e).
Proof. unfold get_field. destruct (db !! e); [eauto|destruct f; discriminate]. Qed.

Lemma first_address_defined (db : DB) (p : nat) :
  IsZero (get_field db p Street) = false ->
  existsb (fun f => negb (IsZero (get_field db p f))) AddressFields = true.
Proof. intros H. unfold AddressFields. cbn [existsb]. rewrite H. reflexivity. Qed.

(** After [FieldsSync] on a contact [y] whose parent [p] has a street, [y]
    carries [p]'s address, and [p] is untouched. *)
Lemma FieldsSync_pulls_address (n : nat) (ctx : list string) (y p : nat) (vals : PartnerData)
    (s : St) (u : unit) (s' : St) :
  acyclic (st_db s) -> FieldsSync n ctx y vals s = Some (u, s') ->
  parent_of (st_db s') y = Some p -> type_of (st_db s') y = "contact" ->
  IsZero (get_field (st_db s) p Street) = false ->
  st_db s' !! p = st_db s !! p /\
  forall f, f ∈ AddressFields -> get_field (st_db s') y f = get_field (st_db s') p f.
Proof.
  intros Hac H Hpar Hty Hst.
  destruct n as [|m]; [discriminate|].
  destruct (sync_Rel m) as (_ & _ & IHC & IHT & IHU).
  cbn [FieldsSync] in H. bind_inv H.
  assert (R1 : Rel (dos (st_db s) y) (st_db s) (st_db s0)).
  { eapply if_ret_Rel; [|exact Hm]. intros _ Hc. exact (IHC _ _ _ _ _ Hc). }
  clear Hm. rewrite mbind_read in H. bind_inv H. rename Hm into H1b.
  change (FieldsSync_downstream m ctx y vals s1 = Some (u, s')) in H.
  assert (R2 : Rel (fun e => exists i, i ∈ [y] /\ dos (st_db s0) i e) (st_db s0) (st_db s1)).
  { eapply if_ret_Rel; [|exact H1b]. intros _ Hc. exact (IHU _ _ _ _ _ _ Hc). }
  pose proof (downstream_Rel m IHT IHU _ _ _ _ _ _ H) as R3.
  destruct R1 as [F1 O1], R2 as [F2 O2], R3 as [F3 O3].
  assert (Hac0 : acyclic (st_db s0)) by (eapply frame_acyclic; eauto).
  assert (Hac1 : acyclic (st_db s1)) by (eapply frame_acyclic; eauto).
  assert (Hp1 : parent_of (st_db s1) y = Some p)
    by (rewrite <- (frame_parent _ _ y F3); exact Hpar).
  assert (Hp0 : parent_of (st_db s0) y = Some p)
    by (rewrite <- (frame_parent _ _ y F2); exact Hp1).
  assert (Hp : parent_of (st_db s) y = Some p)
    by (rewrite <- (frame_parent _ _ y F1); exact Hp0).
  assert (Ht0 : type_of (st_db s0) y = "contact")
    by (rewrite <- (frame_type_of _ _ y F2), <- (frame_type_of _ _ y F3); exact Hty).
  assert (E1 : st_db s0 !! p = st_db s !! p).
  { apply O1. apply (parent_not_dos _ _ _ Hac Hp). }
  assert (E2 : st_db s1 !! p = st_db s0 !! p).
  { apply O2. intros (i & Hi & Hd). apply list_elem_of_singleton in Hi as ->.
    exact (parent_not_dos _ _ _ Hac0 Hp0 Hd). }
  assert (E3 : st_db s' !! p = st_db s1 !! p).
  { apply O3. intros Ha. exact (parent_not_dos _ _ _ Hac1 Hp1 (or_intror Ha)). }
  assert (Ey : st_db s' !! y = st_db s1 !! y).
  { apply O3. apply anc_irrefl, Hac1. }
  assert (Hst0 : IsZero (get_field (st_db s0) p Street) = false)
    by (unfold get_field; rewrite E1; exact Hst).
  assert (Hon : OnchangeParent (st_db s0) y = UpdateFieldValues (st_db s0) p AddressFields).
  { unfold OnchangeParent. rewrite Hp0, Ht0, (first_address_defined _ _ Hst0). reflexivity. }
  assert (Hcond : bool_decide (parent_of (st_db s0) y <> None) &&
                  String.eqb (type_of (st_db s0) y) "contact" = true)
    by (rewrite Hp0, Ht0; reflexivity).
  rewrite Hcond, Hon in H1b.
  assert (Hy0 : is_Some (st_db s0 !! y)) by (eapply parent_is_Some; eauto).
  pose proof (UpdateAddress_copies _ _ _ _ _ _ _ _ H1b Hy0) as Hcopy.
  split; [congruence|].
  intros f Hf. transitivity (get_field (st_db s1) y f).
  { unfold get_field. rewrite Ey. reflexivity. }
  rewrite (Hcopy f Hf). unfold get_field. rewrite E3, E2. reflexivity.
Qed.

(** *** The first-contact rule *)

Lemma HandleFirsrtContactCreation_frame (n : nat) (ctx : list string) (c : nat)
    (s : St) (u : unit) (s' : St) :
  HandleFirsrtContactCreation n ctx c s = Some (u, s') -> frame (st_db s) (st_db s').
Proof.
  intros H. unfold HandleFirsrtContactCreation in H. rewrite mbind_read in H. cbv zeta in H.
  destruct (negb _ && bool_decide _); [apply mret_inv in H; subst; apply frame_refl|].
  destruct (negb (Nat.eqb _ 1)); [apply mret_inv in H; subst; apply frame_refl|].
  destruct (_ && _); [|apply mret_inv in H; subst; apply frame_refl].
  destruct (sync_Rel n) as (_ & _ & _ & _ & HU). apply HU in H. apply H.
Qed.

Lemma HandleFirsrtContactCreation_noop (n : nat) (ctx : list string) (c p : nat)
    (s : St) (u : unit) (s' : St) :
  parent_of (st_db s) c = Some p -> IsZero (get_field (st_db s) p Street) = false ->
  HandleFirsrtContactCreation n ctx c s = Some (u, s') -> s' = s.
Proof.
  intros Hp Hst H. unfold HandleFirsrtContactCreation in H. rewrite mbind_read in H.
  rewrite Hp in H. cbv beta iota zeta in H.
  destruct (negb _ && bool_decide _); [apply mret_inv in H; exact H|].
  destruct (negb (Nat.eqb _ 1)); [apply mret_inv in H; exact H|].
  rewrite (first_address_defined _ _ Hst), andb_false_r in H.
  apply mret_inv in H. exact H.
Qed.

(** *** Frames of whole operations *)



(** *** The log of writes *)

(** The context each write of the synchroniser carries, for a
    synchroniser started in a context where [goto_super] is [g]: the address
    writes go through [goto_super] and do not run [FieldsSync] again; the
    commercial writes inherit the context, so they run [FieldsSync] again
    exactly when [g] is [false]. *)
Definition tagged (g : bool) (ev : Event) : Prop :=
  match ev_origin ev with
  | OExternal => True
  | OUpdateAddress => ev_goto_super ev = true /\ ev_resync ev = false
  | OCommercialSyncFromCompany | OCommercialSyncToChildren =>
      ev_goto_super ev = g /\ ev_resync ev = negb g
  end.

Definition log_ok (g : bool) (s : St) : Prop := Forall (tagged g) (st_log s).

Lemma iterM_inv {A} (P : St -> Prop) (f : A -> M unit) (l : list A) :
  (forall x s u s', x ∈ l -> P s -> f x s = Some (u, s') -> P s') ->
  forall s u s', P s -> iterM f l s = Some (u, s') -> P s'.
Proof.
  induction l as [|x l IH]; intros Hf s u s' Hs H; simpl in H.
  - apply mret_inv in H. subst. exact Hs.
  - bind_inv H. eapply IH; [|eapply Hf; [left|exact Hs|exact Hm]|exact H].
    intros y s2 u2 s3 Hy. apply Hf. right. exact Hy.
Qed.

Lemma if_ret_inv (P : St -> Prop) (b : bool) (m : M unit) (s : St) (u : unit) (s' : St) :
  (b = true -> P s -> m s = Some (u, s') -> P s') -> P s ->
  (if b then m else mret tt) s = Some (u, s') -> P s'.
Proof. intros Hm Hs H. destruct b; [eauto|]. apply mret_inv in H. subst. exact Hs. Qed.

Lemma emit_log_ok (g : bool) (ev : Event) (s : St) (u : unit) (s' : St) :
  tagged g ev -> log_ok g s -> emit ev s = Some (u, s') -> log_ok g s'.
Proof.
  intros Ht Hs H. apply emit_db in H as [_ E]. unfold log_ok. rewrite E.
  apply Forall_app. split; [exact Hs|].
  constructor; [exact Ht|constructor].
Qed.

Lemma super_write_log_ok (g : bool) (ids : list nat) (vals : PartnerData)
    (s : St) (u : unit) (s' : St) :
  log_ok g s -> super_write ids vals s = Some (u, s') -> log_ok g s'.
Proof. intros Hs H. apply super_write_inv in H as (_ & E & _). unfold log_ok. rewrite E. exact Hs. Qed.

Lemma hexya_force_compute_write_key (ctx : list string) :
  has_key ("hexya_force_compute_write" :: ctx) "goto_super" = has_key ctx "goto_super".
Proof. reflexivity. Qed.

(** A [Write] runs the synchroniser only without [goto_super], so only
    when [g] is [false]. *)
Definition Write_log (g : bool) (n : nat) : Prop :=
  forall ctx ids vals o s u s',
    (has_key ctx "goto_super" = false -> g = false) ->
    tagged g (mkEvent o ids (has_key ctx "goto_super") (negb (has_key ctx "goto_super"))) ->
    log_ok g s -> Write n ctx ids vals o s = Some (u, s') -> log_ok g s'.
Definition FieldsSync_log (g : bool) (n : nat) : Prop :=
  forall ctx y vals s u s', has_key ctx "goto_super" = g ->
    log_ok g s -> FieldsSync n ctx y vals s = Some (u, s') -> log_ok g s'.
Definition CommercialSyncFromCompany_log (g : bool) (n : nat) : Prop :=
  forall ctx y s u s', has_key ctx "goto_super" = g ->
    log_ok g s -> CommercialSyncFromCompany n ctx y s = Some (u, s') -> log_ok g s'.
Definition CommercialSyncToChildren_log (g : bool) (n : nat) : Prop :=
  forall ctx x s u s', has_key ctx "goto_super" = g ->
    log_ok g s -> CommercialSyncToChildren n ctx x s = Some (u, s') -> log_ok g s'.
Definition UpdateAddress_log (g : bool) (n : nat) : Prop :=
  forall ctx ids vals s u s',
    log_ok g s -> UpdateAddress n ctx ids vals s = Some (u, s') -> log_ok g s'.

Lemma downstream_log (g : bool) (m : nat) :
  CommercialSyncToChildren_log g m -> UpdateAddress_log g m ->
  forall ctx y vals s u s', has_key ctx "goto_super" = g -> log_ok g s ->
    FieldsSync_downstream m ctx y vals s = Some (u, s') -> log_ok g s'.
Proof.
  intros IHT IHU ctx y vals s u s' Hg Hs H. unfold FieldsSync_downstream in H.
  rewrite mbind_read in H.
  destruct (Children (st_db s) y) as [|c cs].
  { apply mret_inv in H. subst. exact Hs. }
  bind_inv H.
  assert (Hs0 : log_ok g s0)
    by (eapply (if_ret_inv (log_ok g)); [intros _; apply IHT, Hg|exact Hs|exact Hm]).
  clear Hm. rewrite mbind_read in H. bind_inv H.
  assert (Hs1 : log_ok g s1)
    by (eapply (if_ret_inv (log_ok g)); [intros _; apply IHT, Hg|exact Hs0|exact Hm]).
  rewrite mbind_read in H. eapply (if_ret_inv (log_ok g)); [intros _; apply IHU|exact Hs1|exact H].
Qed.

Lemma sync_log (g : bool) (n : nat) :
  Write_log g n /\ FieldsSync_log g n /\ CommercialSyncFromCompany_log g n /\
  CommercialSyncToChildren_log g n /\ UpdateAddress_log g n.
Proof.
  induction n as [|m (IHW & IHF & IHC & IHT & IHU)].
  { repeat split; intros *; repeat intros _; cbn; discriminate. }
  split; [|split; [|split; [|split]]].
  - intros ctx ids vals o s u s' Hgk Ht Hs H. cbn [Write] in H.
    destruct (has_key ctx "goto_super") eqn:Hk.
    + bind_inv H. eapply super_write_log_ok; [|exact H]. eapply emit_log_ok; eauto.
    + bind_inv H. apply (emit_log_ok _ _ _ _ _ Ht Hs) in Hm. bind_inv H. rename Hm0 into Hsw.
      apply (super_write_log_ok _ _ _ _ _ _ Hm) in Hsw.
      eapply (iterM_inv (log_ok g)); [|exact Hsw|exact H].
      intros i s2 u2 s3 _. apply IHF. rewrite Hk. symmetry. apply Hgk. reflexivity.
  - intros ctx y vals s u s' Hg Hs H. cbn [FieldsSync] in H.
    bind_inv H.
    assert (Hs0 : log_ok g s0)
      by (eapply (if_ret_inv (log_ok g)); [intros _; apply IHC, Hg|exact Hs|exact Hm]).
    clear Hm. rewrite mbind_read in H. bind_inv H.
    assert (Hs1 : log_ok g s1)
      by (eapply (if_ret_inv (log_ok g)); [intros _; apply IHU|exact Hs0|exact Hm]).
    change (FieldsSync_downstream m ctx y vals s1 = Some (u, s')) in H.
    exact (downstream_log g m IHT IHU _ _ _ _ _ _ Hg Hs1 H).
  - intros ctx y s u s' Hg Hs H. cbn [CommercialSyncFromCompany] in H. rewrite mbind_read in H.
    destruct (Nat.eqb y _).
    + apply mret_inv in H. subst. exact Hs.
    + eapply IHW; [|idtac|exact Hs|exact H].
      * rewrite Hg. intros ->. reflexivity.
      * rewrite Hg. split; reflexivity.
  - intros ctx x s u s' Hg Hs H. cbn [CommercialSyncToChildren] in H. rewrite mbind_read in H.
    destruct (non_company (st_db s) (Children (st_db s) x)) as [|c cs].
    + apply mret_inv in H. subst. exact Hs.
    + bind_inv H.
      assert (Hs0 : log_ok g s0)
        by (eapply (iterM_inv (log_ok g)); [intros i s2 u2 s3 _; apply IHT, Hg|exact Hs|exact Hm]).
      eapply IHW; [|idtac|exact Hs0|exact H]; rewrite hexya_force_compute_write_key, Hg.
      * intros ->. reflexivity.
      * split; reflexivity.
  - intros ctx ids vals s u s' Hs H. cbn [UpdateAddress] in H.
    destruct (address_part vals) as [|p ps].
    + apply mret_inv in H. subst. exact Hs.
    + eapply IHW; [|idtac|exact Hs|exact H].
      * rewrite goto_super_key. discriminate.
      * rewrite goto_super_key. split; reflexivity.
Qed.

Lemma HandleFirsrtContactCreation_log (g : bool) (n : nat) (ctx : list string) (c : nat)
    (s : St) (u : unit) (s' : St) :
  log_ok g s -> HandleFirsrtContactCreation n ctx c s = Some (u, s') -> log_ok g s'.
Proof.
  intros Hs H. unfold HandleFirsrtContactCreation in H. rewrite mbind_read in H. cbv zeta in H.
  destruct (negb _ && bool_decide _); [apply mret_inv in H; subst; exact Hs|].
  destruct (negb (Nat.eqb _ 1)); [apply mret_inv in H; subst; exact Hs|].
  destruct (_ && _); [|apply mret_inv in H; subst; exact Hs].
  destruct (sync_log g n) as (_ & _ & _ & _ & HU). exact (HU _ _ _ _ _ _ Hs H).
Qed.

(** *** The commercial push of step 2a *)

(** [d] is reached from [x] through (active) children that are not
    companies. *)
Inductive nc_reach (db : DB) (x : nat) : nat -> Prop :=
  | nc_child d : d ∈ Children db x -> is_company db d = false -> nc_reach db x d
  | nc_step c d : c ∈ Children db x -> is_company db c = false -> nc_reach db c d ->
      nc_reach db x d.

(** The commercial values [x] receives: those of its commercial partner. *)
Definition comm_val (db : DB) (x : nat) (f : FieldName) : Value :=
  get_field db (CommercialPartner db x) f.

(** Every commercial field keeps its value or takes the value [V]. *)
Definition comm_or (V : FieldName -> Value) (db db' : DB) : Prop :=
  forall e f, f ∈ CommercialFields -> get_field db' e f = get_field db e f \/ get_field db' e f = V f.

(** No commercial field changes. *)
Definition comm_same (db db' : DB) : Prop :=
  forall e f, f ∈ CommercialFields -> get_field db' e f = get_field db e f.

Lemma frame_nc_reach (db db' : DB) (x d : nat) :
  frame db db' -> nc_reach db' x d <-> nc_reach db x d.
Proof.
  intros F. split; intros H; induction H as [x d Hc Hco|x c d Hc Hco _ IH].
  - apply nc_child; [apply (frame_Children db db' x d F), Hc|].
    rewrite <- (frame_is_company db db' d F). exact Hco.
  - eapply nc_step; [apply (frame_Children db db' x c F), Hc| |exact IH].
    rewrite <- (frame_is_company db db' c F). exact Hco.
  - apply nc_child; [apply (frame_Children db db' x d F), Hc|].
    rewrite (frame_is_company db db' d F). exact Hco.
  - eapply nc_step; [apply (frame_Children db db' x c F), Hc| |exact IH].
    rewrite (frame_is_company db db' c F). exact Hco.
Qed.

Lemma nc_reach_inv (db : DB) (x d : nat) :
  nc_reach db x d -> exists c, c ∈ non_company db (Children db x) /\ (d = c \/ nc_reach db c d).
Proof.
  unfold non_company. intros [d' Hc Hco|c d' Hc Hco H].
  - exists d'. split; [apply list_elem_of_filter; auto|auto].
  - exists c. split; [apply list_elem_of_filter; auto|auto].
Qed.

Lemma comm_or_trans (V : FieldName -> Value) (db1 db2 db3 : DB) :
  comm_or V db1 db2 -> comm_or V db2 db3 -> comm_or V db1 db3.
Proof.
  intros H1 H2 e f Hf. destruct (H2 e f Hf) as [E|E]; [rewrite E; apply H1, Hf|auto].
Qed.

Lemma comm_same_or (V : FieldName -> Value) (db db' : DB) : comm_same db db' -> comm_or V db db'.
Proof. intros H e f Hf. left. apply H, Hf. Qed.

Lemma comm_not_addr (f : FieldName) : f ∈ CommercialFields -> f ∉ AddressFields.
Proof.
  intros Hf Ha. apply list_elem_of_In in Hf, Ha. simpl in Hf, Ha. intuition congruence.
Qed.

Lemma UpdateAddress_comm (n : nat) (ctx : list string) (ids : list nat) (vals : PartnerData)
    (s : St) (u : unit) (s' : St) :
  UpdateAddress n ctx ids vals s = Some (u, s') -> comm_same (st_db s) (st_db s').
Proof. intros H e f Hf. eapply UpdateAddress_field; [apply comm_not_addr, Hf|exact H]. Qed.

Lemma if_UpdateAddress_comm (b : bool) (n : nat) (ctx : list string) (ids : list nat)
    (vals : PartnerData) (s : St) (u : unit) (s' : St) :
  (if b then UpdateAddress n ctx ids vals else mret tt) s = Some (u, s') ->
  comm_same (st_db s) (st_db s') /\ frame (st_db s) (st_db s').
Proof.
  intros H. destruct b.
  - split; [eapply UpdateAddress_comm; exact H|].
    destruct (sync_Rel n) as (_ & _ & _ & _ & HU). apply (HU _ _ _ _ _ _ H).
  - apply mret_inv in H. subst. split; [intros e f _; reflexivity|apply frame_refl].
Qed.

(** In an acyclic table, the non-company children of [y] share its
    commercial partner: the refresh test of step 2a never fires. *)
Lemma cp_children_same (db : DB) (y : nat) :
  acyclic db ->
  existsb (fun c => negb (Nat.eqb (CommercialPartner db c) (CommercialPartner db y)))
    (non_company db (Children db y)) = false.
Proof.
  intros Hac. destruct (existsb _ _) eqn:Ex; [|reflexivity].
  apply existsb_exists in Ex as (c & Hin & Hneq). apply list_elem_of_In in Hin.
  unfold non_company in Hin. apply list_elem_of_filter in Hin as [Hco Hin].
  apply elem_of_Children in Hin as (_ & Hp & _).
  rewrite (cp_child db c y Hac Hco Hp), Nat.eqb_refl in Hneq. discriminate.
Qed.

(** [FieldsSync] on a non-company child with commercial values only
    changes no commercial field. *)
Lemma FieldsSync_child_comm (n : nat) (ctx : list string) (c x : nat) (db0 : DB) (e : nat)
    (s : St) (u : unit) (s' : St) :
  acyclic (st_db s) -> is_company (st_db s) c = false -> parent_of (st_db s) c = Some x ->
  FieldsSync n ctx c (UpdateFieldValues db0 e CommercialFields) s = Some (u, s') ->
  comm_same (st_db s) (st_db s').
Proof.
  intros Hac Hco Hp H. destruct n as [|m]; [discriminate|]. cbn [FieldsSync] in H.
  assert (Hps : parent_set (UpdateFieldValues db0 e CommercialFields) = false) by reflexivity.
  rewrite Hps in H. bind_inv H. apply mret_inv in Hm. subst s0.
  rewrite mbind_read in H. bind_inv H.
  apply if_UpdateAddress_comm in Hm as [C1 F1].
  change (FieldsSync_downstream m ctx c (UpdateFieldValues db0 e CommercialFields) s0 = Some (u, s'))
    in H.
  unfold FieldsSync_downstream in H. rewrite mbind_read in H.
  destruct (Children (st_db s0) c) as [|c0 cs].
  { apply mret_inv in H. subst. exact C1. }
  assert (Hac0 : acyclic (st_db s0)) by (eapply frame_acyclic; eauto).
  assert (Heq : Nat.eqb c (CommercialPartner (st_db s0) c) = false).
  { apply Nat.eqb_neq. intros E. symmetry in E. revert E.
    apply (cp_child_neq _ c x Hac0);
      [rewrite (frame_is_company _ _ c F1); exact Hco|rewrite (frame_parent _ _ c F1); exact Hp]. }
  rewrite Heq in H. cbn [andb] in H.
  bind_inv H. apply mret_inv in Hm. subst s1.
  rewrite mbind_read, (cp_children_same _ c Hac0) in H. bind_inv H. apply mret_inv in Hm. subst s1.
  rewrite mbind_read in H.
  assert (Ha : existsb (data_has (UpdateFieldValues db0 e CommercialFields)) AddressFields = false)
    by reflexivity.
  rewrite Ha in H. apply mret_inv in H. subst. exact C1.
Qed.

Lemma commercial_values (db : DB) (p : nat) (r : Partner) (f : FieldName) :
  f ∈ CommercialFields -> apply_data (UpdateFieldValues db p CommercialFields) r f = get_field db p f.
Proof.
  intros Hf. apply list_elem_of_In in Hf. simpl in Hf. unfold apply_data.
  intuition subst; reflexivity.
Qed.

Lemma comm_or_ext (V W : FieldName -> Value) (db db' : DB) :
  (forall f, V f = W f) -> comm_or V db db' -> comm_or W db db'.
Proof. intros E H e f Hf. rewrite <- E. apply H, Hf. Qed.

(** [CommercialSyncToChildren x] gives every partner reached from [x]
    through non-company children the commercial values of [x]'s commercial
    partner, and writes no other commercial value. *)
Lemma CommercialSyncToChildren_sets (n : nat) (ctx : list string) :
  forall x s u s', acyclic (st_db s) -> CommercialSyncToChildren n ctx x s = Some (u, s') ->
  comm_or (comm_val (st_db s) x) (st_db s) (st_db s') /\
  forall d, nc_reach (st_db s') x d -> forall f, f ∈ CommercialFields ->
    get_field (st_db s') d f = comm_val (st_db s) x f.
Proof.
  induction n as [|m IH]; intros x s u s' Hac H; [discriminate|].
  destruct (sync_Rel m) as (_ & _ & _ & HTm & _).
  cbn [CommercialSyncToChildren] in H. rewrite mbind_read in H.
  set (db := st_db s) in *. set (V := comm_val db x).
  destruct (non_company db (Children db x)) as [|c0 cs] eqn:Hnc.
  { apply mret_inv in H. subst. split; [intros e f _; left; reflexivity|].
    intros d Hd. apply nc_reach_inv in Hd as (c & Hc & _).
    unfold db in Hnc. rewrite Hnc in Hc. apply elem_of_nil in Hc as []. }
  assert (HL : forall c, c ∈ c0 :: cs -> parent_of db c = Some x /\ is_company db c = false).
  { intros c Hc. rewrite <- Hnc in Hc. unfold non_company in Hc.
    apply list_elem_of_filter in Hc as [Hco Hc]. apply elem_of_Children in Hc as (_ & Hp & _).
    auto. }
  bind_inv H. rename Hm into Hit.
  (* the recursive calls, deepest first *)
  assert (Hiter : forall l, (forall c, c ∈ l -> c ∈ c0 :: cs) ->
    forall t v t', Rel (anc db x) db (st_db t) ->
    iterM (CommercialSyncToChildren m ctx) l t = Some (v, t') ->
    Rel (anc db x) db (st_db t') /\ comm_or V (st_db t) (st_db t') /\
    forall c, c ∈ l -> forall d, nc_reach (st_db t') c d -> forall f, f ∈ CommercialFields ->
      get_field (st_db t') d f = V f).
  { induction l as [|c l IHl]; intros Hl t v t' Rt Ht; simpl in Ht.
    - apply mret_inv in Ht. subst. split; [exact Rt|].
      split; [intros e f _; left; reflexivity|]. intros c Hc. apply elem_of_nil in Hc as [].
    - bind_inv Ht. rename Hm into Hc1.
      assert (Hcl : c ∈ c0 :: cs) by (apply Hl; left).
      destruct (HL c Hcl) as [Hpc Hcoc].
      assert (Hact : acyclic (st_db t)) by (eapply frame_acyclic; [apply Rt|exact Hac]).
      assert (Rc : Rel (anc db x) (st_db t) (st_db s1)).
      { eapply Rel_mono; [exact (HTm _ _ _ _ _ Hc1)|]. intros e He.
        apply (frame_anc db (st_db t) c e (proj1 Rt)) in He.
        eapply anc_trans; [apply anc_parent, Hpc|exact He]. }
      assert (HV : forall f, comm_val (st_db t) c f = V f).
      { intros f. unfold V, comm_val.
        rewrite (frame_cp db (st_db t) c (proj1 Rt)), (cp_child db c x Hac Hcoc Hpc).
        unfold get_field. rewrite (proj2 Rt); [reflexivity|]. apply cp_not_desc, Hac. }
      destruct (IH c t _ _ Hact Hc1) as [Cc Nc].
      destruct (IHl (fun c' Hc' => Hl c' (proj2 (elem_of_cons l c' c) (or_intror Hc'))) s1 v t'
                  (Rel_seq _ _ _ _ Rt Rc) Ht) as (Rt' & Cl & Nl).
      split; [exact Rt'|]. split.
      + eapply comm_or_trans; [|exact Cl]. eapply comm_or_ext; [exact HV|exact Cc].
      + intros c' Hc' d Hd f Hf. apply elem_of_cons in Hc' as [->|Hc'].
        * apply (frame_nc_reach db (st_db t') c d (proj1 Rt')) in Hd.
          apply (frame_nc_reach db (st_db s1) c d (proj1 (Rel_seq _ _ _ _ Rt Rc))) in Hd.
          destruct (Cl d f Hf) as [E|E]; rewrite E; [|reflexivity].
          rewrite (Nc d Hd f Hf). apply HV.
        * exact (Nl c' Hc' d Hd f Hf). }
  destruct (Hiter (c0 :: cs) (fun c Hc => Hc) s _ s0 (Rel_refl _ _) Hit) as (R1 & C1 & N1).
  (* the write of the commercial values on the children *)
  destruct m as [|k]; [discriminate|].
  cbn [Write] in H. rewrite hexya_force_compute_write_key in H.
  assert (Hps : parent_set (UpdateFieldValues db (CommercialPartner db x) CommercialFields) = false)
    by reflexivity.
  (* under [goto_super] the write stops after [super_write] *)
  assert (Hw : exists s1 s2, st_db s1 = st_db s0 /\
    super_write (c0 :: cs) (UpdateFieldValues db (CommercialPartner db x) CommercialFields) s1
      = Some (tt, s2) /\
    (s' = s2 \/ iterM (fun i => FieldsSync k ("hexya_force_compute_write" :: ctx) i
      (UpdateFieldValues db (CommercialPartner db x) CommercialFields)) (c0 :: cs) s2
      = Some (u, s'))).
  { destruct (has_key ctx "goto_super").
    - bind_inv H. apply emit_db in Hm as [Hdb _]. repeat match goal with x : unit |- _ => destruct x end.
      exists s1, s'. split; [exact Hdb|split; [exact H|left; reflexivity]].
    - rewrite Hps in H. bind_inv H. apply emit_db in Hm as [Hdb _]. bind_inv H.
      repeat match goal with x : unit |- _ => destruct x end. exists s1, s2. split; [exact Hdb|split; [exact Hm|right; exact H]]. }
  clear H. destruct Hw as (s1 & s2 & Hdb & Hsw & H).
  rewrite <- Hdb in R1, C1, N1.
  assert (F2 : frame (st_db s1) (st_db s2))
    by exact (proj1 (super_write_Rel _ _ _ _ _ (commercial_sync _ _) Hsw)).
  assert (W : forall c f, c ∈ c0 :: cs -> f ∈ CommercialFields -> get_field (st_db s2) c f = V f).
  { intros c f Hc Hf. apply super_write_inv in Hsw as (-> & _ & _).
    apply foldl_alter_written; [intros r; apply commercial_values, Hf|exact Hc|].
    destruct (HL c Hc) as [Hpc _]. apply (proj1 (proj1 R1) c). eapply parent_is_Some, Hpc. }
  assert (C2 : comm_or V (st_db s1) (st_db s2)).
  { intros e f Hf. destruct (decide (e ∈ c0 :: cs)) as [He|He]; [right; apply W; auto|left].
    pose proof Hsw as Hsw'. apply super_write_inv in Hsw' as (-> & _ & _).
    unfold get_field. rewrite foldl_alter_notin by exact He. reflexivity. }
  destruct (sync_Rel k) as (_ & HFk & _).
  assert (C3 : frame db (st_db s') /\ comm_same (st_db s2) (st_db s')).
  { destruct H as [->|H]; [split; [eapply frame_trans; [apply R1|exact F2]|intros e f _; reflexivity]|].
    eapply (iterM_inv (fun t => frame db (st_db t) /\ comm_same (st_db s2) (st_db t)));
      [|split; [eapply frame_trans; [apply R1|exact F2]|intros e f _; reflexivity]|exact H].
    intros c t v t' Hc [Ft Ct] Hfs. destruct (HL c Hc) as [Hpc Hcoc]. split.
    - eapply frame_trans; [exact Ft|]. exact (proj1 (HFk _ _ _ _ _ _ Hfs)).
    - intros e f Hf. rewrite <- (Ct e f Hf).
      refine (FieldsSync_child_comm _ _ c x _ _ _ _ _ _ _ _ Hfs e f Hf).
      + eapply frame_acyclic; eauto.
      + rewrite (frame_is_company _ _ c Ft). exact Hcoc.
      + rewrite (frame_parent _ _ c Ft). exact Hpc. }
  destruct C3 as [F3 C3].
  split.
  - eapply comm_or_trans; [exact C1|]. eapply comm_or_trans; [exact C2|]. apply comm_same_or, C3.
  - intros d Hd f Hf. apply (frame_nc_reach db (st_db s') x d F3) in Hd.
    apply nc_reach_inv in Hd as (c & Hc & Hd). rewrite Hnc in Hc.
    rewrite (C3 d f Hf). destruct Hd as [->|Hd]; [apply W; auto|].
    apply (frame_nc_reach db (st_db s1) c d (proj1 R1)) in Hd.
    destruct (C2 d f Hf) as [E|E]; rewrite E; [|reflexivity]. exact (N1 c Hc d Hd f Hf).
Qed.

(** * Claims *)

(** Claim C1.  The commercial partner of [e] is [e] itself when [e] is a
    company or has no parent, and otherwise the commercial partner of its
    parent: the stored [CommercialPartner] is a fixpoint of the compute
    method [ComputeCommercialPartner]. *)
Theorem CommercialPartner_compute (db : DB) (e : nat) :
  acyclic db ->
  CommercialPartner db e = ComputeCommercialPartner (CommercialPartner db) db e.
Proof. apply CommercialPartner_eq. Qed.

Lemma CommercialPartner_compute_witness :
  acyclic db_ex /\
  CommercialPartner db_ex 3 = ComputeCommercialPartner (CommercialPartner db_ex) db_ex 3.
Proof.
  assert (H : acyclic db_ex) by (apply acyclic_b_spec; vm_compute; reflexivity).
  split; [exact H | apply (CommercialPartner_compute db_ex 3 H)].
Defined.

(** Claim C8.  In an acyclic table the commercial partner of every partner
    is a company or has no parent. *)
Theorem CommercialPartner_is_boundary (db : DB) (e : nat) :
  acyclic db ->
  is_company db (CommercialPartner db e) = true \/
  parent_of db (CommercialPartner db e) = None.
Proof. intros Hac. apply cp_fuel_end, Hac. Qed.

Lemma CommercialPartner_is_boundary_witness :
  acyclic db_ex /\
  (is_company db_ex (CommercialPartner db_ex 3) = true \/
   parent_of db_ex (CommercialPartner db_ex 3) = None).
Proof.
  assert (H : acyclic db_ex) by (apply acyclic_b_spec; vm_compute; reflexivity).
  split; [exact H | apply (CommercialPartner_is_boundary db_ex 3 H)].
Defined.

(** Claim C7.  Commercial resolution is idempotent. *)
Theorem CommercialPartner_idempotent (db : DB) (e : nat) :
  acyclic db ->
  CommercialPartner db (CommercialPartner db e) = CommercialPartner db e.
Proof.
  intros Hac. unfold CommercialPartner at 1.
  apply cp_fuel_root, cp_fuel_end, Hac.
Qed.

Lemma CommercialPartner_idempotent_witness :
  acyclic db_ex /\
  CommercialPartner db_ex (CommercialPartner db_ex 3) = CommercialPartner db_ex 3.
Proof.
  assert (H : acyclic db_ex) by (apply acyclic_b_spec; vm_compute; reflexivity).
  split; [exact H | apply (CommercialPartner_idempotent db_ex 3 H)].
Defined.

(** ** Concrete runs *)

(** Claim C3 fails: writing a street on contact 3, whose parent 2 has the
    street "1 Main St", leaves 3 with the parent's street, not the written
    one. *)
Lemma address_pull_overrides_write :
  match run (Write 20 [] [3] [(Street, VStr "9 Elm St")] OExternal) db_ex with
  | Some (_, st) =>
      parent_of (st_db st) 3 = Some 2 /\ type_of (st_db st) 3 = "contact" /\
      get_field (st_db st) 2 Street = VStr "1 Main St" /\
      get_field (st_db st) 3 Street = VStr "1 Main St"
  | None => False
  end.
Proof. vm_compute. repeat split. Qed.

(** Claim C4: with the roles ["invoice"] on a lone invoice address, the
    result has no "contact" entry. *)
Lemma AddressGet_contact_entry_missing :
  AddressGet 10 db_invoice [5] ["invoice"] = Some {[ "invoice" := [5] ]} /\
  match AddressGet 10 db_invoice [5] ["invoice"] with
  | Some r => r !! "contact" = None
  | None => False
  end.
Proof. split; vm_compute; reflexivity. Qed.

(** Claim C5: an inactive contact created under company 1, which already
    has the active child 2, still hands its address to 1. *)
Lemma first_contact_rule_with_sibling :
  Children db_company 1 = [2] /\
  match run (Create 20 [] [(Name, VStr "C"); (Parent, VRef (Some 1)); (Active, VBool false);
                        (Street, VStr "1 Main St")]) db_company with
  | Some (c, st) => c <> 2 /\ get_field (st_db st) 1 Street = VStr "1 Main St"
  | None => False
  end.
Proof. vm_compute. repeat split; congruence. Qed.

(** Claim C6 fails: setting the parent of 3 makes [FieldsSync] pull the
    commercial fields with a plain [Write], which runs [FieldsSync] again. *)
Lemma commercial_pull_resyncs :
  match run (Write 20 [] [3] [(Parent, VRef (Some 1))] OExternal) db_ex with
  | Some (_, st) =>
      existsb (fun ev => negb (is_external (ev_origin ev)) && ev_resync ev) (st_log st) = true
  | None => False
  end.
Proof. vm_compute. reflexivity. Qed.

(** Claim C9: [DisplayAddress] prints the commercial company name whatever
    its [withoutCompany] argument. *)
Lemma DisplayAddress_ignores_withoutCompany :
  DisplayAddress ∅ ∅ db_ex 2 true = DisplayAddress ∅ ∅ db_ex 2 false /\
  DisplayAddress ∅ ∅ db_ex 2 true =
    Some ("A" ++ nl ++ "1 Main St" ++ nl ++ nl ++ "  " ++ nl).
Proof. split; vm_compute; reflexivity. Qed.



(** Claim C3, as the code behaves.  When a [Write] without the context key
    [goto_super], or a [Create] in any context, leaves [c] a contact whose
    parent [p] has a street, [c]'s address fields equal [p]'s afterwards: the address pulled
    from the parent replaces address values given in the same write. *)
Theorem contact_address_follows_parent (n : nat) (c p : nat) (vals : PartnerData) (s : St) :
  acyclic (st_db s) -> IsZero (get_field (st_db s) p Street) = false ->
  (forall ctx o u s', has_key ctx "goto_super" = false ->
     Write n ctx [c] vals o s = Some (u, s') ->
     parent_of (st_db s') c = Some p -> type_of (st_db s') c = "contact" ->
     forall f, f ∈ AddressFields -> get_field (st_db s') c f = get_field (st_db s') p f) /\
  (forall ctx s', Create n ctx vals s = Some (c, s') ->
     parent_of (st_db s') c = Some p -> type_of (st_db s') c = "contact" ->
     forall f, f ∈ AddressFields -> get_field (st_db s') c f = get_field (st_db s') p f).
Proof.
  intros Hac Hst. split.
  - intros ctx o u s' Hctx H Hpar Hty.
    destruct n as [|m]; [discriminate|]. cbn [Write] in H. rewrite Hctx in H.
    bind_inv H. apply emit_db in Hm as [Hdb _]. bind_inv H. rename Hm into Hsw.
    cbn [iterM] in H. bind_inv H. rename Hm into Hfs. apply mret_inv in H. subst s'.
    assert (Hac1 : acyclic (st_db s1))
      by (eapply super_write_acyclic; [rewrite Hdb; exact Hac|exact Hsw]).
    destruct (sync_Rel m) as (_ & HF & _).
    pose proof (proj1 (HF _ _ _ _ _ _ Hfs)) as F.
    assert (Hp1 : parent_of (st_db s1) c = Some p)
      by (rewrite <- (frame_parent _ _ c F); exact Hpar).
    assert (Hpc : p <> c).
    { intros ->. apply (anc_irrefl _ c Hac1). apply anc_parent, Hp1. }
    assert (Hst1 : IsZero (get_field (st_db s1) p Street) = false).
    { apply super_write_inv in Hsw as (-> & _ & _). unfold get_field.
      rewrite foldl_alter_notin by set_solver. rewrite Hdb. exact Hst. }
    exact (proj2 (FieldsSync_pulls_address _ _ _ _ _ _ _ _ Hac1 Hfs Hpar Hty Hst1)).
  - intros ctx s' H Hpar Hty. unfold Create in H.
    bind_inv H. rename Hm into Hcr. bind_inv H. rename Hm into Hfs.
    bind_inv H. rename Hm into Hhf. unfold mret in H. injection H as <- <-.
    assert (Hac0 : acyclic (st_db s0)) by (eapply super_create_acyclic; eauto).
    pose proof (HandleFirsrtContactCreation_frame _ _ _ _ _ _ Hhf) as F2.
    assert (Hp1 : parent_of (st_db s1) a = Some p)
      by (rewrite <- (frame_parent _ _ a F2); exact Hpar).
    assert (Ht1 : type_of (st_db s1) a = "contact")
      by (rewrite <- (frame_type_of _ _ a F2); exact Hty).
    assert (Hst0 : IsZero (get_field (st_db s0) p Street) = false).
    { apply super_create_inv in Hcr as (Ha & Hdb & _).
      assert (Hpa : p <> a).
      { intros ->. rewrite Ha in Hst. apply nonzero_is_Some in Hst.
        rewrite fresh_not_in in Hst. inversion Hst; discriminate. }
      unfold get_field. rewrite Hdb, lookup_insert_ne by congruence. exact Hst. }
    destruct (FieldsSync_pulls_address _ _ _ _ _ _ _ _ Hac0 Hfs Hp1 Ht1 Hst0) as [Ep Hcopy].
    assert (Hst1 : IsZero (get_field (st_db s1) p Street) = false)
      by (unfold get_field; rewrite Ep; exact Hst0).
    rewrite (HandleFirsrtContactCreation_noop _ _ _ _ _ _ _ Hp1 Hst1 Hhf). exact Hcopy.
Qed.

Lemma contact_address_follows_parent_witness :
  acyclic db_ex /\ IsZero (get_field db_ex 2 Street) = false /\
  ((forall ctx o u s', has_key ctx "goto_super" = false ->
     Write 20 ctx [3] [(Street, VStr "9 Elm St")] o (mkSt db_ex []) = Some (u, s') ->
     parent_of (st_db s') 3 = Some 2 -> type_of (st_db s') 3 = "contact" ->
     forall f, f ∈ AddressFields -> get_field (st_db s') 3 f = get_field (st_db s') 2 f) /\
   (forall ctx s', Create 20 ctx [(Street, VStr "9 Elm St")] (mkSt db_ex []) = Some (3, s') ->
     parent_of (st_db s') 3 = Some 2 -> type_of (st_db s') 3 = "contact" ->
     forall f, f ∈ AddressFields -> get_field (st_db s') 3 f = get_field (st_db s') 2 f)).
Proof.
  assert (H : acyclic db_ex) by (apply acyclic_b_spec; vm_compute; reflexivity).
  assert (Hs : IsZero (get_field db_ex 2 Street) = false) by (vm_compute; reflexivity).
  split; [exact H|split; [exact Hs|]].
  exact (contact_address_follows_parent 20 3 2 _ (mkSt db_ex []) H Hs).
Defined.

(** Claim C6, as the code behaves.  In every run of an outside [Write] or
    of a [Create] in a context [ctx], each write of the synchroniser is
    logged [tagged g], where [g] tells whether [ctx] has the key
    [goto_super]: the writes of [UpdateAddress] (the address pull of step
    1b, the address push of step 2b and the first-contact rule) carry
    [goto_super] and do not run [FieldsSync]; the writes of the commercial
    pull (step 1a) and of the commercial push (step 2a) inherit the caller's
    context, so without [goto_super] ([g = false]) they run [FieldsSync]
    again on the written partners, and under a [Create] called with
    [goto_super] ([g = true], a key [Create] does not check) they carry it
    and do not. *)
Theorem sync_writes_tagged (n : nat) (ctx : list string) (ids : list nat)
    (vals : PartnerData) (db : DB) :
  match run (Write n ctx ids vals OExternal) db with
  | Some (_, st) => Forall (tagged (has_key ctx "goto_super")) (st_log st)
  | None => True
  end /\
  match run (Create n ctx vals) db with
  | Some (_, st) => Forall (tagged (has_key ctx "goto_super")) (st_log st)
  | None => True
  end.
Proof.
  set (g := has_key ctx "goto_super").
  destruct (sync_log g n) as (HW & HF & _).
  assert (H0 : log_ok g (mkSt db [])) by constructor.
  split.
  - destruct (run _ db) as [[u st]|] eqn:E; [|exact I].
    exact (HW ctx ids vals OExternal _ _ _ (fun H => H) I H0 E).
  - destruct (run _ db) as [[i st]|] eqn:E; [|exact I].
    unfold run, Create in E.
    bind_inv E. rename Hm into Hcr. bind_inv E. rename Hm into Hfs.
    bind_inv E. rename Hm into Hhf. unfold mret in E. injection E as <- <-.
    apply super_create_inv in Hcr as (_ & _ & Hl & _).
    assert (Hs : log_ok g s) by (unfold log_ok; rewrite Hl; constructor).
    exact (HandleFirsrtContactCreation_log _ _ _ _ _ _ _ (HF _ _ _ _ _ _ eq_refl Hs Hfs) Hhf).
Qed.



(** Claim C2.  After [FieldsSync], in any context, on a partner [b] that is its own
    commercial partner and has a non-empty commercial field, every partner
    reached from [b] through (active) non-company children has the
    commercial fields of [b]. *)
Theorem commercial_fields_pushed_down (n : nat) (ctx : list string) (b : nat) (vals : PartnerData)
    (s : St) :
  acyclic (st_db s) -> CommercialPartner (st_db s) b = b ->
  existsb (fun f => negb (IsZero (get_field (st_db s) b f))) CommercialFields = true ->
  match FieldsSync n ctx b vals s with
  | Some (_, s') =>
      forall d, nc_reach (st_db s') b d -> forall f, f ∈ CommercialFields ->
        get_field (st_db s') d f = get_field (st_db s') b f
  | None => True
  end.
Proof.
  intros Hac Hb Hex.
  destruct (FieldsSync n ctx b vals s) as [[u s']|] eqn:H; [|exact I].
  destruct n as [|m]; [discriminate|].
  destruct (sync_Rel m) as (_ & _ & _ & HTm & _).
  cbn [FieldsSync] in H.
  (* 1a: [b] is its own commercial partner, nothing to pull *)
  bind_inv H.
  assert (E0 : s0 = s).
  { destruct (parent_set vals); [|exact (mret_inv _ _ _ _ Hm)].
    destruct m as [|k]; [discriminate|]. cbn [CommercialSyncFromCompany] in Hm.
    rewrite mbind_read, Hb, Nat.eqb_refl in Hm. exact (mret_inv _ _ _ _ Hm). }
  subst s0. clear Hm.
  (* 1b: an address pull at most *)
  rewrite mbind_read in H. bind_inv H.
  apply if_UpdateAddress_comm in Hm as [C1 F1].
  change (FieldsSync_downstream m ctx b vals s0 = Some (u, s')) in H.
  unfold FieldsSync_downstream in H. rewrite mbind_read in H.
  assert (Hac0 : acyclic (st_db s0)) by (eapply frame_acyclic; eauto).
  destruct (Children (st_db s0) b) as [|c0 cs] eqn:Hch.
  { apply mret_inv in H. subst s'. intros d Hd.
    apply nc_reach_inv in Hd as (c & Hc & _). rewrite Hch in Hc.
    apply elem_of_nil in Hc as []. }
  (* 2a: the push *)
  assert (Hb0 : Nat.eqb b (CommercialPartner (st_db s0) b) = true)
    by (rewrite (frame_cp _ _ b F1), Hb; apply Nat.eqb_refl).
  assert (Hex0 : existsb (fun f => negb (IsZero (get_field (st_db s0) b f))) CommercialFields = true).
  { revert Hex. unfold CommercialFields. cbn [existsb].
    rewrite (C1 b VAT), (C1 b CreditLimit); [auto| |]; apply list_elem_of_In; simpl; auto. }
  rewrite Hb0, Hex0 in H. cbn [andb] in H.
  bind_inv H. rename Hm into Hpush.
  destruct (CommercialSyncToChildren_sets m ctx b s0 _ _ Hac0 Hpush) as [_ N2].
  pose proof (HTm _ _ _ _ _ Hpush) as [F2 O2].
  assert (Hac1 : acyclic (st_db s1)) by (eapply frame_acyclic; eauto).
  rewrite mbind_read, (cp_children_same _ b Hac1) in H.
  bind_inv H. apply mret_inv in Hm. subst s2.
  (* 2b: an address push at most *)
  rewrite mbind_read in H. apply if_UpdateAddress_comm in H as [C3 F3].
  intros d Hd f Hf.
  apply (frame_nc_reach (st_db s1) (st_db s') b d F3) in Hd.
  rewrite (C3 d f Hf), (C3 b f Hf), (N2 d Hd f Hf).
  unfold comm_val. rewrite (frame_cp _ _ b F1), Hb.
  unfold get_field at 2. rewrite (O2 b); [reflexivity|]. apply anc_irrefl, Hac0.
Qed.

Lemma commercial_fields_pushed_down_witness :
  acyclic db_ex /\ CommercialPartner db_ex 1 = 1 /\
  existsb (fun f => negb (IsZero (get_field db_ex 1 f))) CommercialFields = true /\
  match FieldsSync 20 [] 1 [] (mkSt db_ex []) with
  | Some (_, s') =>
      forall d, nc_reach (st_db s') 1 d -> forall f, f ∈ CommercialFields ->
        get_field (st_db s') d f = get_field (st_db s') 1 f
  | None => True
  end.
Proof.
  assert (H : acyclic db_ex) by (apply acyclic_b_spec; vm_compute; reflexivity).
  assert (Hb : CommercialPartner db_ex 1 = 1) by (vm_compute; reflexivity).
  assert (Hx : existsb (fun f => negb (IsZero (get_field db_ex 1 f))) CommercialFields = true)
    by (vm_compute; reflexivity).
  split; [exact H|split; [exact Hb|split; [exact Hx|]]].
  exact (commercial_fields_pushed_down 20 [] 1 [] (mkSt db_ex []) H Hb Hx).
Defined.

(** * Further properties *)

(** ** Write and Create on the table *)

Lemma super_write_dom (ids : list nat) (vals : PartnerData) (s : St) (u : unit) (s' : St) (e : nat) :
  super_write ids vals s = Some (u, s') -> is_Some (st_db s' !! e) <-> is_Some (st_db s !! e).
Proof. intros H. apply super_write_inv in H as (-> & _ & _). apply foldl_alter_dom. Qed.


Lemma data_get_filter (d : PartnerData) (g f : FieldName) :
  f <> g -> data_get (filter (fun p => fst p <> g) d) f = data_get d f.
Proof.
  intros Hfg. induction d as [|[h v] d IH]; [reflexivity|].
  cbn. repeat (case_decide; cbn); auto; congruence.
Qed.

Lemma data_set_other (d : PartnerData) (g f : FieldName) (v : Value) :
  f <> g -> data_get (data_set d g v) f = data_get d f.
Proof.
  intros Hfg. unfold data_set. simpl. destruct (decide (g = f)); [congruence|].
  apply data_get_filter, Hfg.
Qed.

Lemma super_write_log (ids : list nat) (vals : PartnerData) (s : St) (u : unit) (s' : St)
    (l : list Event) :
  super_write ids vals s = Some (u, s') ->
  super_write ids vals (mkSt (st_db s) l) = Some (u, mkSt (st_db s') l).
Proof.
  unfold super_write. rewrite !mbind_read. simpl.
  destruct (_ && _); [discriminate|]. unfold put_db. intros H. injection H as <- <-. reflexivity.
Qed.

(** The outside [Write]: the ORM write, then [FieldsSync] on each written
    partner, whose effects stay within the written partners' subtrees of
    the table after the ORM write. *)
Lemma Write_steps (n : nat) (ctx : list string) (ids : list nat) (vals : PartnerData) (o : Origin)
    (s : St) (u : unit) (s' : St) :
  Write n ctx ids vals o s = Some (u, s') ->
  exists vals' s1, (forall f, f <> CompanyName -> data_get vals' f = data_get vals f) /\
    super_write ids vals' s = Some (tt, s1) /\ frame (st_db s1) (st_db s') /\
    outside (fun e => exists i, i ∈ ids /\ dos (st_db s1) i e) (st_db s1) (st_db s').
Proof.
  intros H. destruct n as [|m]; [discriminate|]. cbn [Write] in H.
  destruct (has_key ctx "goto_super").
  - bind_inv H. apply emit_db in Hm as [Hdb Hl].
    exists vals, (mkSt (st_db s') (st_log s)). split; [reflexivity|].
    split; [|split; [apply frame_refl|intros e _; reflexivity]].
    destruct u. apply (super_write_log _ _ _ _ _ (st_log s)) in H. rewrite Hdb in H.
    destruct s. exact H.
  - set (vals' := if parent_set vals then data_set vals CompanyName (VStr "") else vals) in H.
    bind_inv H. apply emit_db in Hm as [Hdb Hl]. bind_inv H. rename Hm into Hsw.
    exists vals', (mkSt (st_db s1) (st_log s)). split.
    { intros f Hf. unfold vals'. destruct (parent_set vals); [|reflexivity].
      apply data_set_other, Hf. }
    destruct (sync_Rel m) as (_ & HF & _).
    pose proof (iterM_Rel (fun e => exists i, i ∈ ids /\ dos (st_db s1) i e) (st_db s1) _ ids
      (fun x s2 u2 s3 Hx F0 Hc =>
         Rel_mono _ _ _ _ (HF _ _ _ _ _ _ Hc)
           (fun e He => ex_intro _ x (conj Hx (proj1 (frame_dos _ _ x e F0) He))))
      s1 u s' (frame_refl _) H) as [F O].
    split; [|split; [exact F|exact O]].
    destruct a0. apply (super_write_log _ _ _ _ _ (st_log s)) in Hsw. rewrite Hdb in Hsw.
    destruct s. exact Hsw.
Qed.

Lemma Create_steps (n : nat) (ctx : list string) (vals : PartnerData) (s : St) (i : nat) (s' : St) :
  Create n ctx vals s = Some (i, s') ->
  exists vals' s0, super_create vals' s = Some (i, s0) /\ data_has vals' Parent = data_has vals Parent /\
    frame (st_db s0) (st_db s').
Proof.
  intros H. unfold Create in H.
  set (vals' := if parent_set vals then data_set vals CompanyName (VStr "") else vals) in H.
  bind_inv H. rename Hm into Hcr. bind_inv H. rename Hm into Hfs.
  bind_inv H. rename Hm into Hhf. unfold mret in H. injection H as <- <-.
  exists vals', s0. split; [exact Hcr|split].
  - unfold vals'. destruct (parent_set vals) eqn:Ep; [|reflexivity].
    unfold data_has. rewrite data_set_other by discriminate. reflexivity.
  - destruct (sync_Rel n) as (_ & HF & _).
    eapply frame_trans;
      [apply (HF _ _ _ _ _ _ Hfs)|apply (HandleFirsrtContactCreation_frame _ _ _ _ _ _ Hhf)].
Qed.

Lemma alter_parent_other (db : DB) (vals : PartnerData) (e x : nat) :
  x <> e -> parent_of (alter (apply_data vals) e db) x = parent_of db x.
Proof. intros Hx. unfold parent_of, get_field. rewrite lookup_alter_ne by congruence. reflexivity. Qed.

Lemma alter_parent_self (db : DB) (vals : PartnerData) (e d : nat) :
  is_Some (db !! e) -> data_get vals Parent = Some (VRef (Some d)) ->
  parent_of (alter (apply_data vals) e db) e = Some d.
Proof.
  intros [r Hr] Hv. unfold parent_of, get_field. rewrite lookup_alter_eq, Hr. simpl.
  unfold apply_data. rewrite Hv. reflexivity.
Qed.

(** The [CheckParent] constraint refuses to make a partner its own
    ancestor. *)
Lemma super_write_cycle (e d : nat) (vals : PartnerData) (s : St) :
  acyclic (st_db s) -> is_Some (st_db s !! e) -> data_get vals Parent = Some (VRef (Some d)) ->
  dos (st_db s) e d -> super_write [e] vals s = None.
Proof.
  intros Hac He Hv Hd. unfold super_write. rewrite mbind_read. simpl.
  set (db1 := alter (apply_data vals) e (st_db s)).
  assert (Hh : data_has vals Parent = true) by (unfold data_has; rewrite Hv; reflexivity).
  rewrite Hh. destruct (CheckParent db1) eqn:Hc; [|reflexivity]. exfalso.
  apply acyclic_b_spec in Hc. apply (anc_irrefl db1 e Hc).
  assert (Hanc : forall x, anc (st_db s) e x -> anc db1 e x).
  { intros x Hx. induction Hx as [x Hp|x b Hp Hb IH].
    - destruct (decide (x = e)) as [->|Hne].
      + exfalso. apply (anc_irrefl _ e Hac), anc_parent, Hp.
      + apply anc_parent. unfold db1. rewrite alter_parent_other by exact Hne. exact Hp.
    - destruct (decide (x = e)) as [->|Hne].
      + exfalso. apply (anc_irrefl _ e Hac). eapply anc_step; [exact Hp|exact Hb].
      + eapply anc_step; [|exact IH]. unfold db1. rewrite alter_parent_other by exact Hne. exact Hp. }
  pose proof (alter_parent_self (st_db s) vals e d He Hv) as Hp1. fold db1 in Hp1.
  destruct Hd as [<-|Hd].
  - apply anc_parent, Hp1.
  - eapply anc_step; [exact Hp1|]. apply Hanc, Hd.
Qed.


(** Starting from a table whose [Parent] links have no cycle, a
    successful [Write] or [Create] leaves a table without cycle: every
    write of [Parent] goes through the [CheckParent] constraint, and the
    synchroniser's own writes do not touch [Parent]. *)
Theorem Write_Create_keep_acyclic (n : nat) (s : St) :
  acyclic (st_db s) ->
  (forall ctx ids vals o,
     match Write n ctx ids vals o s with Some (_, s') => acyclic (st_db s') | None => True end) /\
  (forall ctx vals,
     match Create n ctx vals s with Some (_, s') => acyclic (st_db s') | None => True end).
Proof.
  intros Hac. split.
  - intros ctx ids vals o. destruct (Write n ctx ids vals o s) as [[u s']|] eqn:H; [|exact I].
    destruct (Write_steps _ _ _ _ _ _ _ _ H) as (vals' & s1 & _ & Hsw & F & _).
    eapply frame_acyclic; [exact F|]. eapply super_write_acyclic; [exact Hac|exact Hsw].
  - intros ctx vals. destruct (Create n ctx vals s) as [[i s']|] eqn:H; [|exact I].
    destruct (Create_steps _ _ _ _ _ _ H) as (vals' & s0 & Hcr & _ & F).
    eapply frame_acyclic; [exact F|]. eapply super_create_acyclic; [exact Hac|exact Hcr].
Qed.

Lemma Write_Create_keep_acyclic_witness :
  acyclic db_ex /\
  ((forall ctx ids vals o,
     match Write 20 ctx ids vals o (mkSt db_ex []) with
     | Some (_, s') => acyclic (st_db s') | None => True end) /\
   (forall ctx vals, match Create 20 ctx vals (mkSt db_ex []) with
     | Some (_, s') => acyclic (st_db s') | None => True end)).
Proof.
  assert (H : acyclic db_ex) by (apply acyclic_b_spec; vm_compute; reflexivity).
  split; [exact H|]. exact (Write_Create_keep_acyclic 20 (mkSt db_ex []) H).
Defined.

(** [Write] neither adds nor removes partners.  [Create] adds exactly one
    partner, the one it returns, under an id that was free. *)
Theorem Write_Create_records (n : nat) (s : St) :
  (forall ctx ids vals o,
     match Write n ctx ids vals o s with
     | Some (_, s') => forall e, is_Some (st_db s' !! e) <-> is_Some (st_db s !! e)
     | None => True
     end) /\
  (forall ctx vals,
     match Create n ctx vals s with
     | Some (i, s') => st_db s !! i = None /\
         forall e, is_Some (st_db s' !! e) <-> e = i \/ is_Some (st_db s !! e)
     | None => True
     end).
Proof.
  split.
  - intros ctx ids vals o. destruct (Write n ctx ids vals o s) as [[u s']|] eqn:H; [|exact I].
    destruct (Write_steps _ _ _ _ _ _ _ _ H) as (vals' & s1 & _ & Hsw & [F _] & _).
    intros e. rewrite <- (F e). exact (super_write_dom _ _ _ _ _ e Hsw).
  - intros ctx vals. destruct (Create n ctx vals s) as [[i s']|] eqn:H; [|exact I].
    destruct (Create_steps _ _ _ _ _ _ H) as (vals' & s0 & Hcr & _ & [F _]).
    apply super_create_inv in Hcr as (-> & Hdb & _).
    split; [apply fresh_not_in|]. intros e. rewrite <- (F e), Hdb.
    destruct (decide (e = fresh (dom (st_db s)))) as [->|Hne].
    + rewrite lookup_insert_eq. split; [auto|eauto].
    + rewrite lookup_insert_ne by congruence. split; [auto|]. intros [?|?]; [congruence|auto].
Qed.

(** A [Write] that sets the [Parent] of a partner [e] to [e] itself or to
    one of its descendants fails, whatever its context: the [CheckParent]
    constraint panics. *)
Theorem Write_rejects_parent_cycle (n : nat) (ctx : list string) (e d : nat) (vals : PartnerData)
    (o : Origin) (s : St) :
  acyclic (st_db s) -> is_Some (st_db s !! e) -> data_get vals Parent = Some (VRef (Some d)) ->
  dos (st_db s) e d -> Write n ctx [e] vals o s = None.
Proof.
  intros Hac He Hv Hd. destruct n as [|m]; [reflexivity|]. cbn [Write].
  destruct (has_key ctx "goto_super").
  - unfold mbind, emit. simpl. apply (super_write_cycle e d vals); assumption.
  - set (vals' := if parent_set vals then data_set vals CompanyName (VStr "") else vals).
    assert (Hv' : data_get vals' Parent = Some (VRef (Some d))).
    { unfold vals'. destruct (parent_set vals); [|exact Hv].
      rewrite data_set_other by discriminate. exact Hv. }
    unfold mbind at 1, emit. simpl. unfold mbind.
    rewrite (super_write_cycle e d vals' (mkSt (st_db s) _) Hac He Hv' Hd). reflexivity.
Qed.

Lemma Write_rejects_parent_cycle_witness :
  acyclic db_ex /\ is_Some (db_ex !! 1) /\
  data_get [(Parent, VRef (Some 3))] Parent = Some (VRef (Some 3)) /\ dos db_ex 1 3 /\
  Write 20 [] [1] [(Parent, VRef (Some 3))] OExternal (mkSt db_ex []) = None.
Proof.
  assert (H : acyclic db_ex) by (apply acyclic_b_spec; vm_compute; reflexivity).
  assert (He : is_Some (db_ex !! 1)) by (vm_compute; eauto).
  assert (Hv : data_get [(Parent, VRef (Some 3))] Parent = Some (VRef (Some 3))) by reflexivity.
  assert (Hd : dos db_ex 1 3).
  { right. eapply anc_step; [vm_compute; reflexivity|]. apply anc_parent. vm_compute. reflexivity. }
  split; [exact H|split; [exact He|split; [exact Hv|split; [exact Hd|]]]].
  exact (Write_rejects_parent_cycle 20 [] 1 3 _ OExternal (mkSt db_ex []) H He Hv Hd).
Defined.

Lemma omap_data_get (vals : PartnerData) (fs : list FieldName) (g : FieldName) :
  NoDup fs ->
  data_get (omap (fun f => (fun v => (f, v)) <$> data_get vals f) fs) g =
  if decide (g ∈ fs) then data_get vals g else None.
Proof.
  induction 1 as [|f fs Hf Hnd IH]; [reflexivity|]. cbn [omap list_omap].
  destruct (data_get vals f) as [v|] eqn:Ev; cbn [fmap option_fmap option_map].
  - cbn [data_get]. destruct (decide (f = g)) as [->|Hne].
    + rewrite decide_True by (left; reflexivity). congruence.
    + rewrite IH. destruct (decide (g ∈ fs)), (decide (g ∈ f :: fs)); try reflexivity;
        set_solver.
  - rewrite IH. destruct (decide (g ∈ fs)), (decide (g ∈ f :: fs)); try reflexivity; [set_solver|].
    assert (g = f) as -> by set_solver. congruence.
Qed.

Lemma address_part_get (vals : PartnerData) (f : FieldName) :
  f ∈ AddressFields -> data_get (address_part vals) f = data_get vals f.
Proof.
  intros Hf. unfold address_part. rewrite omap_data_get.
  - rewrite decide_True by exact Hf. reflexivity.
  - unfold AddressFields. repeat constructor; set_solver.
Qed.

(** [UpdateAddress ids vals], in any context, is a plain ORM write of the address fields
    present in [vals] on the partners [ids]: those fields take the given
    values on the existing partners of [ids]; every other field, and every
    partner outside [ids], keeps its value (no synchronisation runs). *)
Theorem UpdateAddress_writes_address_part (n : nat) (ctx : list string) (ids : list nat)
    (vals : PartnerData) (s : St) :
  match UpdateAddress n ctx ids vals s with
  | Some (_, s') =>
      (forall e, e ∉ ids -> st_db s' !! e = st_db s !! e) /\
      (forall e f, f ∉ AddressFields \/ data_get vals f = None ->
         get_field (st_db s') e f = get_field (st_db s) e f) /\
      (forall e f v, e ∈ ids -> is_Some (st_db s !! e) -> f ∈ AddressFields ->
         data_get vals f = Some v -> get_field (st_db s') e f = v)
  | None => True
  end.
Proof.
  destruct (UpdateAddress n ctx ids vals s) as [[u s']|] eqn:H; [|exact I].
  destruct n as [|m]; [discriminate|]. cbn [UpdateAddress] in H.
  destruct (address_part vals) as [|p ps] eqn:Ha.
  { apply mret_inv in H. subst s'. split; [reflexivity|split; [reflexivity|]].
    intros e f v _ _ Hf Hv. rewrite <- (address_part_get vals f Hf), Ha in Hv. discriminate. }
  rewrite <- Ha in H.
  destruct m as [|k]; [discriminate|]. cbn [Write] in H. rewrite goto_super_key in H.
  bind_inv H. apply emit_db in Hm as [Hdb _].
  apply super_write_inv in H as (Hdb' & _ & _). rewrite Hdb in Hdb'. clear Hdb.
  split; [|split].
  - intros e He. rewrite Hdb'. apply foldl_alter_notin, He.
  - intros e f Hf. rewrite Hdb'. apply foldl_alter_field. intros r. apply apply_data_other.
    destruct Hf as [Hf|Hf]; [apply address_part_other, Hf|].
    destruct (decide (f ∈ AddressFields)) as [Hin|Hnin].
    + rewrite address_part_get by exact Hin. exact Hf.
    + apply address_part_other, Hnin.
  - intros e f v Hi Hs Hf Hv. rewrite Hdb'. apply foldl_alter_written; [|exact Hi|exact Hs].
    intros r. unfold apply_data. rewrite address_part_get, Hv by exact Hf. reflexivity.
Qed.

(** [CompanyType] read back after [InverseCompanyType t]: "company" when
    [t] is "company", "person" for any other [t]; so writing back the
    computed type changes nothing. *)
Theorem CompanyType_round_trip (n : nat) (ctx : list string) (ids : list nat) (t : string) (s : St) :
  match InverseCompanyType n ctx ids t s with
  | Some (_, s') => forall e, e ∈ ids -> is_Some (st_db s !! e) ->
      ComputeCompanyType (st_db s') e = (if String.eqb t "company" then "company" else "person")
  | None => True
  end.
Proof.
  destruct (InverseCompanyType n ctx ids t s) as [[u s']|] eqn:H; [|exact I].
  intros e Hi Hs. unfold InverseCompanyType in H.
  destruct (Write_steps _ _ _ _ _ _ _ _ H) as (vals' & s1 & Hv & Hsw & F & _).
  unfold ComputeCompanyType. rewrite (frame_is_company _ _ e F).
  apply super_write_inv in Hsw as (-> & _ & _). unfold is_company.
  rewrite (foldl_alter_written _ ids _ e IsCompany (VBool (String.eqb t "company")));
    [destruct (String.eqb t "company"); reflexivity| |exact Hi|exact Hs].
  intros r. unfold apply_data. rewrite Hv by discriminate. reflexivity.
Qed.

(** *** The commercial pull *)

Lemma cp_neq_child (db : DB) (y : nat) :
  acyclic db -> CommercialPartner db y <> y ->
  is_company db y = false /\ exists x, parent_of db y = Some x.
Proof.
  intros Hac Hne. rewrite (CommercialPartner_eq db y Hac) in Hne.
  unfold ComputeCommercialPartner in Hne.
  destruct (is_company db y); [simpl in Hne; congruence|].
  destruct (parent_of db y) as [x|]; [eauto|simpl in Hne; congruence].
Qed.

(** [CommercialSyncFromCompany y], in any context, gives [y] the
    commercial fields of its commercial partner. *)
Lemma CommercialSyncFromCompany_pulls (n : nat) (ctx : list string) (y : nat) (s : St) (u : unit)
    (s' : St) :
  acyclic (st_db s) -> CommercialSyncFromCompany n ctx y s = Some (u, s') ->
  forall f, f ∈ CommercialFields ->
    get_field (st_db s') y f = get_field (st_db s') (CommercialPartner (st_db s') y) f.
Proof.
  intros Hac H f Hf. destruct n as [|k]; [discriminate|]. cbn [CommercialSyncFromCompany] in H.
  rewrite mbind_read in H.
  destruct (Nat.eqb y (CommercialPartner (st_db s) y)) eqn:E.
  { apply mret_inv in H. subst s'. apply Nat.eqb_eq in E. rewrite <- E. reflexivity. }
  apply Nat.eqb_neq in E.
  destruct (cp_neq_child (st_db s) y Hac (not_eq_sym E)) as [Hco [x Hp]].
  set (cp := CommercialPartner (st_db s) y) in *.
  destruct k as [|j]; [discriminate|]. cbn [Write] in H.
  assert (Hps : parent_set (UpdateFieldValues (st_db s) cp CommercialFields) = false) by reflexivity.
  destruct (has_key ctx "goto_super").
  { (* under [goto_super]: the ORM write alone *)
    bind_inv H. apply emit_db in Hm as [Hdb _].
    assert (R1 := super_write_Rel _ _ _ _ _ (commercial_sync _ _) H). destruct R1 as [F1 O1].
    rewrite Hdb in F1, O1.
    rewrite (frame_cp _ _ y F1). fold cp.
    assert (Hy : get_field (st_db s') y f = get_field (st_db s) cp f).
    { apply super_write_inv in H as (-> & _ & _). rewrite Hdb.
      apply foldl_alter_written; [|left|exact (parent_is_Some _ _ _ Hp)].
      intros r. apply commercial_values, Hf. }
    rewrite Hy. unfold get_field at 2. rewrite O1; [reflexivity|]. set_solver. }
  rewrite Hps in H.
  bind_inv H. apply emit_db in Hm as [Hdb _]. bind_inv H. rename Hm into Hsw.
  cbn [iterM] in H. bind_inv H. rename Hm into Hfs. apply mret_inv in H. subst s2.
  assert (R1 := super_write_Rel _ _ _ _ _ (commercial_sync _ _) Hsw). destruct R1 as [F1 O1].
  rewrite Hdb in F1, O1.
  assert (Hac1 : acyclic (st_db s1)) by (eapply frame_acyclic; eauto).
  assert (C2 := FieldsSync_child_comm _ _ y x _ _ _ _ _ Hac1
    (eq_trans (frame_is_company _ _ y F1) Hco) (eq_trans (frame_parent _ _ y F1) Hp) Hfs).
  destruct (sync_Rel j) as (_ & HF & _). destruct (HF _ _ _ _ _ _ Hfs) as [F2 _].
  rewrite (frame_cp _ _ y F2), (frame_cp _ _ y F1). fold cp.
  rewrite (C2 y f Hf), (C2 cp f Hf).
  assert (Hy : get_field (st_db s1) y f = get_field (st_db s) cp f).
  { apply super_write_inv in Hsw as (-> & _ & _). rewrite Hdb.
    apply foldl_alter_written; [|left|exact (parent_is_Some _ _ _ Hp)].
    intros r. apply commercial_values, Hf. }
  rewrite Hy. unfold get_field at 2. rewrite O1; [reflexivity|]. set_solver.
Qed.

(** [FieldsSync y vals], in any context, when [vals] sets a parent, leaves
    [y] with the commercial fields of its commercial partner. *)
Lemma FieldsSync_pulls_commercial (n : nat) (ctx : list string) (y : nat) (vals : PartnerData)
    (s : St) (u : unit) (s' : St) :
  acyclic (st_db s) -> parent_set vals = true -> FieldsSync n ctx y vals s = Some (u, s') ->
  forall f, f ∈ CommercialFields ->
    get_field (st_db s') y f = get_field (st_db s') (CommercialPartner (st_db s') y) f.
Proof.
  intros Hac Hps H f Hf. destruct n as [|k]; [discriminate|]. cbn [FieldsSync] in H.
  rewrite Hps in H. bind_inv H. rename Hm into Hcs.
  destruct (sync_Rel k) as (_ & _ & HC & HT & HU).
  destruct (HC _ _ _ _ _ Hcs) as [F0 _].
  assert (Hac0 : acyclic (st_db s0)) by (eapply frame_acyclic; eauto).
  pose proof (CommercialSyncFromCompany_pulls _ _ _ _ _ _ Hac Hcs f Hf) as P0.
  rewrite mbind_read in H. bind_inv H.
  apply if_UpdateAddress_comm in Hm as [C1 F1].
  change (FieldsSync_downstream k ctx y vals s1 = Some (u, s')) in H.
  destruct (downstream_Rel k HT HU _ _ _ _ _ _ H) as [F2 O2].
  assert (Hac1 : acyclic (st_db s1)) by (eapply frame_acyclic; eauto).
  rewrite (frame_cp _ _ y F2), (frame_cp _ _ y F1).
  unfold get_field. rewrite (O2 y) by (apply anc_irrefl, Hac1).
  rewrite (O2 (CommercialPartner (st_db s0) y));
    [|rewrite <- (frame_cp _ _ y F1); apply cp_not_desc, Hac1].
  fold (get_field (st_db s1) y f) (get_field (st_db s1) (CommercialPartner (st_db s0) y) f).
  rewrite (C1 y f Hf), (C1 _ f Hf). exact P0.
Qed.

(** A [Write] without the context key [goto_super] on a single partner
    [y], or a [Create] of [y] in any context, whose values set a parent leaves [y] with the
    commercial fields ([VAT], [CreditLimit]) of its commercial partner: the
    values are pulled from the commercial partner, over values given in the
    same write. *)
Theorem commercial_fields_follow_parent (n : nat) (y : nat) (vals : PartnerData) (s : St) :
  acyclic (st_db s) -> parent_set vals = true ->
  (forall ctx o, has_key ctx "goto_super" = false ->
     match Write n ctx [y] vals o s with
     | Some (_, s') => forall f, f ∈ CommercialFields ->
         get_field (st_db s') y f = get_field (st_db s') (CommercialPartner (st_db s') y) f
     | None => True
     end) /\
  (forall ctx,
     match Create n ctx vals s with
     | Some (i, s') => forall f, f ∈ CommercialFields ->
         get_field (st_db s') i f = get_field (st_db s') (CommercialPartner (st_db s') i) f
     | None => True
     end).
Proof.
  intros Hac Hps. split.
  - intros ctx o Hctx. destruct (Write n ctx [y] vals o s) as [[u s']|] eqn:H; [|exact I].
    destruct n as [|m]; [discriminate|]. cbn [Write] in H. rewrite Hctx, Hps in H.
    bind_inv H. apply emit_db in Hm as [Hdb _]. bind_inv H. rename Hm into Hsw.
    cbn [iterM] in H. bind_inv H. rename Hm into Hfs. apply mret_inv in H. subst s'.
    assert (Hac1 : acyclic (st_db s1))
      by (eapply super_write_acyclic; [rewrite Hdb; exact Hac|exact Hsw]).
    assert (Hps' : parent_set (data_set vals CompanyName (VStr "")) = true).
    { unfold parent_set. rewrite data_set_other by discriminate. exact Hps. }
    exact (FieldsSync_pulls_commercial _ _ _ _ _ _ _ Hac1 Hps' Hfs).
  - intros ctx. destruct (Create n ctx vals s) as [[i s']|] eqn:H; [|exact I].
    unfold Create in H. rewrite Hps in H.
    bind_inv H. rename Hm into Hcr. bind_inv H. rename Hm into Hfs.
    bind_inv H. rename Hm into Hhf. unfold mret in H. injection H as <- <-.
    assert (Hac0 : acyclic (st_db s0)) by (eapply super_create_acyclic; eauto).
    assert (Hps' : parent_set (data_set vals CompanyName (VStr "")) = true).
    { unfold parent_set. rewrite data_set_other by discriminate. exact Hps. }
    intros f Hf.
    pose proof (FieldsSync_pulls_commercial _ _ _ _ _ _ _ Hac0 Hps' Hfs f Hf) as P.
    pose proof (HandleFirsrtContactCreation_frame _ _ _ _ _ _ Hhf) as F2.
    rewrite (frame_cp _ _ a F2).
    assert (C : comm_same (st_db s1) (st_db s2)).
    { unfold HandleFirsrtContactCreation in Hhf. rewrite mbind_read in Hhf. cbv zeta in Hhf.
      destruct (negb _ && bool_decide _);
        [apply mret_inv in Hhf; subst; intros ???; reflexivity|].
      destruct (negb (Nat.eqb _ 1)); [apply mret_inv in Hhf; subst; intros ???; reflexivity|].
      destruct (_ && _); [|apply mret_inv in Hhf; subst; intros ???; reflexivity].
      exact (UpdateAddress_comm _ _ _ _ _ _ _ Hhf). }
    rewrite (C a f Hf), (C _ f Hf). exact P.
Qed.

Lemma commercial_fields_follow_parent_witness :
  acyclic db_ex /\ parent_set [(Parent, VRef (Some 1)); (VAT, VStr "X")] = true /\
  ((forall ctx o, has_key ctx "goto_super" = false ->
     match Write 20 ctx [3] [(Parent, VRef (Some 1)); (VAT, VStr "X")] o (mkSt db_ex []) with
     | Some (_, s') => forall f, f ∈ CommercialFields ->
         get_field (st_db s') 3 f = get_field (st_db s') (CommercialPartner (st_db s') 3) f
     | None => True
     end) /\
   (forall ctx,
      match Create 20 ctx [(Parent, VRef (Some 1)); (VAT, VStr "X")] (mkSt db_ex []) with
      | Some (i, s') => forall f, f ∈ CommercialFields ->
          get_field (st_db s') i f = get_field (st_db s') (CommercialPartner (st_db s') i) f
      | None => True
      end)).
Proof.
  assert (H : acyclic db_ex) by (apply acyclic_b_spec; vm_compute; reflexivity).
  assert (Hp : parent_set [(Parent, VRef (Some 1)); (VAT, VStr "X")] = true) by reflexivity.
  split; [exact H|split; [exact Hp|]].
  exact (commercial_fields_follow_parent 20 3 _ (mkSt db_ex []) H Hp).
Defined.

(** ** AddressGet *)

(** The entries found by the search: each key is a wanted type, and its
    value the first partner met of that type. *)
Definition ag_inv (db : DB) (atMap : gset string) (r : AddrResult) : Prop :=
  forall t v, r !! t = Some v -> t ∈ atMap /\ exists x, v = [x] /\ type_of db x = t.

Lemma scan_inv (fuel : nat) (db : DB) (atMap : gset string) :
  forall toScan result visited b r v,
  scan fuel db atMap toScan result visited = Some (b, r, v) -> ag_inv db atMap result ->
  ag_inv db atMap r /\ (b = true -> size r = size atMap).
Proof.
  induction fuel as [|f IH]; intros toScan result visited b r v H Hi; [discriminate|].
  cbn [scan] in H. destruct toScan as [|record rest].
  { injection H as <- <- <-. split; [exact Hi|discriminate]. }
  set (res1 := if bool_decide (type_of db record ∈ atMap) &&
                  bool_decide (result !! type_of db record = None)
               then <[type_of db record := [record]]> result else result) in H.
  assert (Hi1 : ag_inv db atMap res1).
  { unfold res1. destruct (bool_decide _ && bool_decide _) eqn:E; [|exact Hi].
    apply andb_true_iff in E as [E1 _]. apply bool_decide_eq_true in E1.
    intros t w Hw. destruct (decide (t = type_of db record)) as [->|Hne].
    - rewrite lookup_insert_eq in Hw. injection Hw as <-. split; [exact E1|eauto].
    - rewrite lookup_insert_ne in Hw by congruence. exact (Hi t w Hw). }
  destruct (Nat.eqb (size res1) (size atMap)) eqn:Es.
  - injection H as <- <- <-. split; [exact Hi1|]. intros _. apply Nat.eqb_eq, Es.
  - exact (IH _ _ _ _ _ _ H Hi1).
Qed.

Lemma climb_inv (fuel : nat) (db : DB) (atMap : gset string) :
  forall current result visited b r v,
  climb fuel db atMap current result visited = Some (b, r, v) -> ag_inv db atMap result ->
  ag_inv db atMap r /\ (b = true -> size r = size atMap).
Proof.
  induction fuel as [|f IH]; intros current result visited b r v H Hi; [discriminate|].
  cbn [climb] in H.
  destruct (scan (S f) db atMap [current] result visited) as [[[b1 r1] v1]|] eqn:Hs;
    [|discriminate].
  destruct (scan_inv _ _ _ _ _ _ _ _ _ Hs Hi) as [Hi1 Hb1].
  destruct b1.
  - injection H as <- <- <-. auto.
  - destruct (parent_of db current) as [q|].
    + destruct (is_company db current).
      * injection H as <- <- <-. split; [exact Hi1|discriminate].
      * exact (IH _ _ _ _ _ _ H Hi1).
    + injection H as <- <- <-. split; [exact Hi1|discriminate].
Qed.

Lemma seeds_loop_inv (fuel : nat) (db : DB) (atMap : gset string) :
  forall seeds result visited b r,
  seeds_loop fuel db atMap seeds result visited = Some (b, r) -> ag_inv db atMap result ->
  ag_inv db atMap r /\ (b = true -> size r = size atMap).
Proof.
  intros seeds. induction seeds as [|p rest IH]; intros result visited b r H Hi.
  { injection H as <- <-. split; [exact Hi|discriminate]. }
  cbn [seeds_loop] in H.
  destruct (climb fuel db atMap p result visited) as [[[b1 r1] v1]|] eqn:Hc; [|discriminate].
  destruct (climb_inv _ _ _ _ _ _ _ _ _ Hc Hi) as [Hi1 Hb1].
  destruct b1.
  - injection H as <- <-. auto.
  - exact (IH _ _ _ _ H Hi1).
Qed.

Lemma ag_full (db : DB) (atMap : gset string) (r : AddrResult) (t : string) :
  ag_inv db atMap r -> size r = size atMap -> t ∈ atMap -> is_Some (r !! t).
Proof.
  intros Hi Hs Ht. apply elem_of_dom.
  assert (Hsub : dom r ⊆ atMap).
  { intros k Hk. apply elem_of_dom in Hk as [v Hv]. exact (proj1 (Hi k v Hv)). }
  assert (Heq : dom r ≡ atMap).
  { apply set_subseteq_size_equiv; [exact Hsub|]. rewrite size_dom, Hs. lia. }
  apply Heq, Ht.
Qed.

Lemma ag_fold (addrTypes : list string) (def : list nat) (P : string -> list nat -> Prop) :
  forall r : AddrResult,
  (forall t v, r !! t = Some v -> P t v) -> (forall t, t ∈ addrTypes -> P t def) ->
  let r' := foldl (fun acc t => match acc !! t with Some _ => acc | None => <[t := def]> acc end)
              r addrTypes in
  (forall t, t ∈ addrTypes -> is_Some (r' !! t)) /\
  (forall t, is_Some (r !! t) -> is_Some (r' !! t)) /\
  (forall t v, r' !! t = Some v -> P t v).
Proof.
  induction addrTypes as [|t0 ts IH]; intros r Hr Hd; cbn [foldl].
  { split; [intros t Ht; apply elem_of_nil in Ht as []|split; [auto|exact Hr]]. }
  set (r1 := match r !! t0 with Some _ => r | None => <[t0 := def]> r end).
  assert (Hr1 : forall t v, r1 !! t = Some v -> P t v).
  { unfold r1. destruct (r !! t0) eqn:E; [exact Hr|]. intros t v Hv.
    destruct (decide (t = t0)) as [->|Hne].
    - rewrite lookup_insert_eq in Hv. injection Hv as <-. apply Hd. left.
    - rewrite lookup_insert_ne in Hv by congruence. exact (Hr t v Hv). }
  assert (Hmono : forall t, is_Some (r !! t) -> is_Some (r1 !! t)).
  { unfold r1. intros t Ht. destruct (r !! t0) eqn:E; [exact Ht|].
    destruct (decide (t = t0)) as [->|Hne]; [rewrite lookup_insert_eq; eauto|].
    rewrite lookup_insert_ne by congruence. exact Ht. }
  assert (Ht0 : is_Some (r1 !! t0)).
  { unfold r1. destruct (r !! t0) eqn:E; [eauto|]. rewrite lookup_insert_eq. eauto. }
  destruct (IH r1 Hr1 (fun t Ht => Hd t (list_elem_of_further _ _ _ Ht))) as (A & B & C).
  split; [|split; [intros t Ht; apply B, Hmono, Ht|exact C]].
  intros t Ht. apply elem_of_cons in Ht as [->|Ht]; [apply B, Ht0|apply A, Ht].
Qed.

(** The result of [AddressGet rs addrTypes] has an entry for every
    requested type, and no entry for a type that is neither requested nor
    "contact".  Each entry is a single partner of that type, a single
    partner of type "contact" (the default), or the record set [rs] itself
    (the last default). *)
Theorem AddressGet_entries (fuel : nat) (db : DB) (rs : list nat) (addrTypes : list string) :
  match AddressGet fuel db rs addrTypes with
  | Some r =>
      (forall t, t ∈ addrTypes -> is_Some (r !! t)) /\
      (forall t v, r !! t = Some v -> (t = "contact" \/ t ∈ addrTypes) /\
         ((exists x, v = [x] /\ (type_of db x = t \/ type_of db x = "contact")) \/ v = rs))
  | None => True
  end.
Proof.
  unfold AddressGet.
  set (atMap := {["contact"]} ∪ list_to_set addrTypes : gset string).
  assert (Hat : forall t, t ∈ atMap <-> t = "contact" \/ t ∈ addrTypes).
  { intros t. unfold atMap. rewrite elem_of_union, elem_of_singleton, elem_of_list_to_set. tauto. }
  destruct (seeds_loop fuel db atMap rs ∅ ∅) as [[b r]|] eqn:H; [|exact I].
  assert (Hi0 : ag_inv db atMap ∅) by (intros t v Hv; rewrite lookup_empty in Hv; discriminate).
  destruct (seeds_loop_inv _ _ _ _ _ _ _ _ H Hi0) as [Hi Hb].
  destruct b.
  - split.
    + intros t Ht. apply (ag_full db atMap r t Hi (Hb eq_refl)). apply Hat. auto.
    + intros t v Hv. destruct (Hi t v Hv) as [Ht [x [-> Hx]]].
      split; [apply Hat, Ht|]. left. exists x. auto.
  - set (def := match r !! "contact" with Some ct => ct | None => rs end).
    set (P := fun t v => (t = "contact" \/ t ∈ addrTypes) /\
         ((exists x, v = [x] /\ (type_of db x = t \/ type_of db x = "contact")) \/ v = rs)).
    assert (Hr : forall t v, r !! t = Some v -> P t v).
    { intros t v Hv. destruct (Hi t v Hv) as [Ht [x [-> Hx]]].
      split; [apply Hat, Ht|]. left. exists x. auto. }
    assert (Hd : forall t, t ∈ addrTypes -> P t def).
    { intros t Ht. split; [auto|]. unfold def.
      destruct (r !! "contact") as [ct|] eqn:E; [|auto].
      destruct (Hi _ _ E) as [_ [x [-> Hx]]]. left. exists x. auto. }
    destruct (ag_fold addrTypes def P r Hr Hd) as (A & _ & C).
    split; [exact A|exact C].
Qed.

(** ** DisplayAddress *)

Lemma string_of_list_ascii_app (s : string) (l : list ascii) :
  string_of_list_ascii (list_ascii_of_string s ++ l) = s ++ string_of_list_ascii l.
Proof. induction s as [|c s IH]; simpl; [reflexivity|]. rewrite IH. reflexivity. Qed.

Lemma render_default (a b c z sc sn cc cn q : string) :
  render default_address_format
    [("Street", a); ("Street2", b); ("City", c); ("Zip", z); ("StateCode", sc);
     ("StateName", sn); ("CountryCode", cc); ("CountryName", cn); ("CompanyName", q)] =
  Some (a ++ nl ++ b ++ nl ++ c ++ " " ++ sc ++ " " ++ z ++ nl ++ cn).
Proof.
  unfold render.
  assert (E : render_chars (list_ascii_of_string default_address_format) LText
    [("Street", a); ("Street2", b); ("City", c); ("Zip", z); ("StateCode", sc);
     ("StateName", sn); ("CountryCode", cc); ("CountryName", cn); ("CompanyName", q)] =
    Some (list_ascii_of_string a ++ "010"%char :: list_ascii_of_string b ++ "010"%char ::
          list_ascii_of_string c ++ " "%char :: list_ascii_of_string sc ++ " "%char ::
          list_ascii_of_string z ++ "010"%char :: list_ascii_of_string cn ++ [])%list) by (vm_compute; reflexivity).
  rewrite E, app_nil_r. simpl fmap. f_equal.
  repeat first [rewrite string_of_list_ascii_app | progress cbn [string_of_list_ascii]].
  rewrite string_of_list_ascii_of_string. reflexivity.
Qed.

Lemma render_company (a b c z sc sn cc cn q : string) :
  render ("{{ .CompanyName }}" ++ nl ++ default_address_format)
    [("Street", a); ("Street2", b); ("City", c); ("Zip", z); ("StateCode", sc);
     ("StateName", sn); ("CountryCode", cc); ("CountryName", cn); ("CompanyName", q)] =
  Some (q ++ nl ++ a ++ nl ++ b ++ nl ++ c ++ " " ++ sc ++ " " ++ z ++ nl ++ cn).
Proof.
  unfold render.
  assert (E : render_chars (list_ascii_of_string ("{{ .CompanyName }}" ++ nl ++ default_address_format)) LText
    [("Street", a); ("Street2", b); ("City", c); ("Zip", z); ("StateCode", sc);
     ("StateName", sn); ("CountryCode", cc); ("CountryName", cn); ("CompanyName", q)] =
    Some (list_ascii_of_string q ++ "010"%char ::
          list_ascii_of_string a ++ "010"%char :: list_ascii_of_string b ++ "010"%char ::
          list_ascii_of_string c ++ " "%char :: list_ascii_of_string sc ++ " "%char ::
          list_ascii_of_string z ++ "010"%char :: list_ascii_of_string cn ++ [])%list) by (vm_compute; reflexivity).
  rewrite E, app_nil_r. simpl fmap. f_equal.
  repeat first [rewrite string_of_list_ascii_app | progress cbn [string_of_list_ascii]].
  rewrite string_of_list_ascii_of_string. reflexivity.
Qed.

Lemma string_app_assoc (a b c : string) : (a ++ b) ++ c = a ++ b ++ c.
Proof. induction a as [|x a IH]; [reflexivity|]. exact (f_equal (String x) IH). Qed.

(** When the partner's country gives no address format (no country, or
    an empty [AddressFormat]), [DisplayAddress] never fails and prints the
    default layout: the commercial company name on a line of its own when
    it is not empty, then street, street2, "city state-code zip" and the
    country name, one per line. *)
Theorem DisplayAddress_default_layout (countries : gmap nat CountryRec)
    (states : gmap nat StateRec) (db : DB) (e : nat) (withoutCompany : bool) :
  let country := ref_of (get_field db e Country) ≫= fun c => countries !! c in
  let state := ref_of (get_field db e State) ≫= fun s => states !! s in
  default "" (country_AddressFormat <$> country) = "" ->
  DisplayAddress countries states db e withoutCompany =
  Some ((if String.eqb (CommercialCompanyName db e) "" then ""
         else CommercialCompanyName db e ++ nl) ++
        str_of (get_field db e Street) ++ nl ++ str_of (get_field db e Street2) ++ nl ++
        str_of (get_field db e City) ++ " " ++ default "" (state_Code <$> state) ++ " " ++
        str_of (get_field db e Zip) ++ nl ++ default "" (country_Name <$> country)).
Proof.
  intros country state Hf. unfold DisplayAddress. fold country state. rewrite Hf. cbn [String.eqb].
  destruct (String.eqb (CommercialCompanyName db e) "").
  - apply render_default.
  - rewrite string_app_assoc. apply render_company.
Qed.

Lemma DisplayAddress_default_layout_witness :
  default "" (country_AddressFormat <$> (ref_of (get_field db_ex 2 Country) ≫= fun c =>
    (∅ : gmap nat CountryRec) !! c)) = "" /\
  DisplayAddress ∅ ∅ db_ex 2 false =
  Some ((if String.eqb (CommercialCompanyName db_ex 2) "" then ""
         else CommercialCompanyName db_ex 2 ++ nl) ++
        str_of (get_field db_ex 2 Street) ++ nl ++ str_of (get_field db_ex 2 Street2) ++ nl ++
        str_of (get_field db_ex 2 City) ++ " " ++
        default "" (state_Code <$> (ref_of (get_field db_ex 2 State) ≫= fun s =>
          (∅ : gmap nat StateRec) !! s)) ++ " " ++
        str_of (get_field db_ex 2 Zip) ++ nl ++
        default "" (country_Name <$> (ref_of (get_field db_ex 2 Country) ≫= fun c =>
          (∅ : gmap nat CountryRec) !! c))).
Proof.
  assert (H : default "" (country_AddressFormat <$> (ref_of (get_field db_ex 2 Country) ≫= fun c =>
    (∅ : gmap nat CountryRec) !! c)) = "") by (vm_compute; reflexivity).
  split; [exact H|]. exact (DisplayAddress_default_layout ∅ ∅ db_ex 2 false H).
Defined.

(** ** Tag names *)

Lemma string_length_app (a b : string) :
  String.length (a ++ b) = String.length a + String.length b.
Proof. induction a as [|c a IH]; [reflexivity|]. exact (f_equal S IH). Qed.

Lemma substring_app_l (x r : string) : substring 0 (String.length x) (x ++ r) = x.
Proof. induction x as [|c x IH]; [destruct r; reflexivity|]. exact (f_equal (String c) IH). Qed.

Lemma substring_app_r (x r : string) (k n : nat) :
  substring (String.length x + k) n (x ++ r) = substring k n r.
Proof. induction x as [|c x IH]; [reflexivity|]. exact IH. Qed.

Lemma substring_all (l : string) : substring 0 (String.length l) l = l.
Proof. induction l as [|c l IH]; [reflexivity|]. exact (f_equal (String c) IH). Qed.

Lemma slash_in_end (y : string) : "/"%char ∈ list_ascii_of_string (y ++ "/").
Proof. induction y as [|c y IH]; cbn; [left|right; exact IH]. Qed.

(** A string ending in '/' keeps ending in '/' once a non-empty prefix is
    cut off. *)
Lemma ends_slash_app (u v y : string) :
  u ++ v = y ++ "/" -> v <> "" -> exists y', v = y' ++ "/".
Proof.
  revert y. induction u as [|c u IH]; intros y H Hv; [exists y; exact H|].
  destruct y as [|d y].
  - exfalso. injection H as _ H. destruct u, v; solve [congruence | discriminate].
  - cbn in H. injection H as _ H. exact (IH y H Hv).
Qed.

Lemma sep_not_ends_slash (y : string) : " / " <> y ++ "/".
Proof.
  intros H. pose proof (f_equal String.length H) as L. rewrite string_length_app in L.
  destruct y as [|c1 [|c2 [|c3 y]]]; cbn in L; try lia; cbv [String.append] in H; congruence.
Qed.

Lemma app_String (c : ascii) (a b : string) : String c a ++ b = String c (a ++ b).
Proof. reflexivity. Qed.

Lemma Index_String (c : ascii) (s sep : string) :
  Index (String c s) sep = if String.prefix sep (String c s) then Some 0 else S <$> Index s sep.
Proof. reflexivity. Qed.

Lemma prefix_sep_inv (c : ascii) (s : string) :
  String.prefix " / " (String c s) = true ->
  c = " "%char /\ exists s', s = String "/" (String " " s').
Proof.
  change (String.prefix " / " (String c s))
    with (if Ascii.ascii_dec " " c then String.prefix "/ " s else false).
  destruct (Ascii.ascii_dec " " c) as [<-|]; [|discriminate].
  destruct s as [|a [|b s]]; [discriminate| |].
  - change (String.prefix "/ " (String a ""))
      with (if Ascii.ascii_dec "/" a then String.prefix " " "" else false).
    destruct (Ascii.ascii_dec "/" a); discriminate.
  - change (String.prefix "/ " (String a (String b s)))
      with (if Ascii.ascii_dec "/" a then
              (if Ascii.ascii_dec " " b then String.prefix "" s else false) else false).
    destruct (Ascii.ascii_dec "/" a) as [<-|]; [|discriminate].
    destruct (Ascii.ascii_dec " " b) as [<-|]; [|discriminate].
    intros _. split; [reflexivity|]. exists s. reflexivity.
Qed.

Lemma Index_no_slash (l : string) :
  "/"%char ∉ list_ascii_of_string l -> Index l " / " = None.
Proof.
  induction l as [|c l IH]; intros Hl; [reflexivity|].
  rewrite Index_String, IH by (intros Hin; apply Hl; right; exact Hin).
  destruct (String.prefix " / " (String c l)) eqn:P; [|reflexivity].
  apply prefix_sep_inv in P as [_ [s' ->]]. exfalso. apply Hl. right. left.
Qed.

(** The first " / " of [x ++ " / " ++ l] is the written one, or one lying
    wholly inside [x], when [l] has no '/' and [x] does not end in '/'. *)
Lemma Index_sep (x l : string) :
  "/"%char ∉ list_ascii_of_string l -> ~ (exists y, x = y ++ "/") ->
  Index (x ++ " / " ++ l) " / " = Some (String.length x) \/
  exists x1 x2, x = x1 ++ " / " ++ x2 /\
    Index (x ++ " / " ++ l) " / " = Some (String.length x1).
Proof.
  intros Hl. induction x as [|c x IH]; intros Hx; [left; destruct l; reflexivity|].
  assert (Hx' : ~ (exists y, x = y ++ "/")).
  { intros [y ->]. apply Hx. exists (String c y). reflexivity. }
  rewrite app_String, Index_String.
  destruct (String.prefix " / " (String c (x ++ " / " ++ l))) eqn:P.
  - apply prefix_sep_inv in P as [-> [s' Es]]. right.
    destruct x as [|d x]; [discriminate|].
    rewrite app_String in Es. injection Es as -> Es.
    destruct x as [|e x]; [exfalso; apply Hx; exists " "; reflexivity|].
    rewrite app_String in Es. injection Es as -> _.
    exists "", x. split; reflexivity.
  - destruct (IH Hx') as [E|(x1 & x2 & -> & E)]; rewrite E.
    + left. reflexivity.
    + right. exists (String c x1), x2. split; reflexivity.
Qed.

Lemma split_loop_no_sep (f : nat) (l : string) :
  "/"%char ∉ list_ascii_of_string l -> split_loop f l " / " = [l].
Proof.
  intros Hl. destruct f as [|f]; [reflexivity|]. cbn [split_loop].
  rewrite Index_no_slash by exact Hl. reflexivity.
Qed.

Lemma last_cons_some (a : string) (rest : list string) (v : string) :
  last rest = Some v -> last (a :: rest) = Some v.
Proof. destruct rest; [discriminate|]. intros H. exact H. Qed.

Lemma substring_sep (n : nat) (r : string) :
  substring (String.length " / ") n (" / " ++ r) = substring 0 n r.
Proof. reflexivity. Qed.

(** The remainder after the cut at the end of [x]. *)
Lemma split_rest (x l : string) :
  substring (String.length x + String.length " / ")
    (String.length (x ++ " / " ++ l) - (String.length x + String.length " / "))
    (x ++ " / " ++ l) = l.
Proof.
  rewrite substring_app_r, substring_sep, !string_length_app.
  replace (String.length x + (String.length " / " + String.length l) -
           (String.length x + String.length " / ")) with (String.length l) by lia.
  apply substring_all.
Qed.

(** The last token of [x ++ " / " ++ l] is [l]. *)
Lemma split_last (f : nat) (x l : string) :
  "/"%char ∉ list_ascii_of_string l -> ~ (exists y, x = y ++ "/") ->
  String.length x < f ->
  last (split_loop f (x ++ " / " ++ l) " / ") = Some l.
Proof.
  revert x. induction f as [|f IH]; intros x Hl Hx Hf; [lia|].
  cbn [split_loop]. destruct (Index_sep x l Hl Hx) as [E|(x1 & x2 & -> & E)]; rewrite E.
  - rewrite split_rest, split_loop_no_sep by exact Hl. reflexivity.
  - rewrite !string_app_assoc, split_rest. apply last_cons_some, IH; [exact Hl| |].
    + intros [y ->]. apply Hx. exists (x1 ++ " / " ++ y). rewrite !string_app_assoc. reflexivity.
    + rewrite !string_length_app in Hf. cbn in Hf. lia.
Qed.

Lemma category_names_path (f : nat) (cats : CatDB) (cur : option nat) (acc ns : list string) :
  category_names f cats cur acc = Some ns ->
  exists pre, ns = (pre ++ acc)%list /\
    forall n, n ∈ pre -> exists k d, cats !! k = Some d /\ n = cat_Name d.
Proof.
  revert cur acc. induction f as [|f IH]; intros cur acc H;
    destruct cur as [k|]; cbn in H; try (injection H as <-; exists []; split; [reflexivity|];
      intros n Hn; inversion Hn).
  - destruct (cats !! k); [discriminate|]. injection H as <-. exists []. split; [reflexivity|].
    intros n Hn. inversion Hn.
  - destruct (cats !! k) as [d|] eqn:Ek.
    + apply IH in H as (pre & -> & Hpre). exists (pre ++ [cat_Name d])%list.
      split; [rewrite <- app_assoc; reflexivity|].
      intros n Hn. apply elem_of_app in Hn as [Hn|Hn]; [exact (Hpre n Hn)|].
      apply list_elem_of_singleton in Hn as ->. exists k, d. split; [exact Ek|reflexivity].
    + injection H as <-. exists []. split; [reflexivity|]. intros n Hn. inversion Hn.
Qed.

Lemma Join_snoc (pre : list string) (l sep : string) :
  Join (pre ++ [l])%list sep = match pre with [] => l | _ => Join pre sep ++ sep ++ l end.
Proof.
  induction pre as [|a pre IH]; [reflexivity|].
  destruct pre as [|b t]; [reflexivity|].
  change (Join ((a :: b :: t) ++ [l])%list sep) with (a ++ sep ++ Join ((b :: t) ++ [l])%list sep).
  rewrite IH. change (Join (a :: b :: t) sep) with (a ++ sep ++ Join (b :: t) sep).
  rewrite !string_app_assoc. reflexivity.
Qed.

Lemma Join_not_ends_slash (pre : list string) :
  (forall n, n ∈ pre -> "/"%char ∉ list_ascii_of_string n) ->
  ~ (exists y, Join pre " / " = y ++ "/").
Proof.
  induction pre as [|a pre IH]; intros Hpre [y Hy].
  - destruct y; discriminate.
  - destruct pre as [|b t].
    + change (Join [a] " / ") with a in Hy.
      apply (Hpre a); [left|]. rewrite Hy. apply slash_in_end.
    + change (Join (a :: b :: t) " / ") with (a ++ " / " ++ Join (b :: t) " / ") in Hy.
      destruct (String.eqb_spec (Join (b :: t) " / ") "") as [E|E].
      * rewrite E in Hy. apply ends_slash_app in Hy as [y' Hy']; [|discriminate].
        exact (sep_not_ends_slash y' Hy').
      * apply ends_slash_app in Hy as [y' Hy']; [|discriminate].
        apply ends_slash_app in Hy' as [y'' Hy'']; [|exact E].
        apply IH; [intros n Hn; apply Hpre; right; exact Hn|]. exists y''. exact Hy''.
Qed.

(** Searching a tag by the full name that [NameGet] displays searches for
    the tag's own name: [SearchByName] keeps the text after the last
    " / ", which is the tag's name as long as no tag name contains '/'. *)
Theorem Category_SearchByName_NameGet (fuel : nat) (cats : CatDB) (display : string)
    (i : nat) (c : Category) :
  cats !! i = Some c ->
  map_Forall (fun _ d => "/"%char ∉ list_ascii_of_string (cat_Name d)) cats ->
  match Category_NameGet fuel cats display i with
  | Some full => Category_SearchByName_name full = cat_Name c
  | None => True
  end.
Proof.
  intros Hi Hall. pose proof (Hall i c Hi) as Hc. cbn beta in Hc.
  assert (Hname : forall l, "/"%char ∉ list_ascii_of_string l -> Category_SearchByName_name l = l).
  { intros l Hl. unfold Category_SearchByName_name.
    destruct (String.eqb_spec l ""); [reflexivity|].
    unfold Split. rewrite split_loop_no_sep by exact Hl. reflexivity. }
  unfold Category_NameGet. destruct (String.eqb display "short").
  - rewrite Hi. exact (Hname _ Hc).
  - destruct (category_names fuel cats (Some i) []) as [ns|] eqn:E; [|exact I].
    cbn [fmap option_fmap option_map].
    destruct fuel as [|f]; cbn in E; rewrite Hi in E; [discriminate|].
    apply category_names_path in E as (pre & -> & Hpre).
    rewrite Join_snoc. destruct pre as [|a pre]; [exact (Hname _ Hc)|].
    unfold Category_SearchByName_name.
    destruct (String.eqb_spec (Join (a :: pre) " / " ++ " / " ++ cat_Name c) "") as [Z|_].
    { apply (f_equal String.length) in Z. rewrite !string_length_app in Z. cbn in Z. lia. }
    unfold Split. rewrite split_last; [reflexivity|exact Hc| |].
    + apply Join_not_ends_slash. intros n Hn.
      destruct (Hpre n Hn) as (k & d & Hk & ->). exact (Hall k d Hk).
    + rewrite !string_length_app. cbn. lia.
Qed.

Lemma Category_SearchByName_NameGet_witness :
  cats_ex !! 3 = Some (mkCategory "Gold" (Some 2)) /\
  map_Forall (fun _ d => "/"%char ∉ list_ascii_of_string (cat_Name d)) cats_ex /\
  match Category_NameGet 10 cats_ex "" 3 with
  | Some full => Category_SearchByName_name full = cat_Name (mkCategory "Gold" (Some 2))
  | None => True
  end.
Proof.
  assert (Hall : map_Forall (fun _ d => "/"%char ∉ list_ascii_of_string (cat_Name d)) cats_ex)
    by (apply (bool_decide_unpack _); vm_compute; reflexivity).
  split; [reflexivity|]. split; [exact Hall|].
  exact (Category_SearchByName_NameGet 10 cats_ex "" 3 _ eq_refl Hall).
Defined.

